(** * Moeller-Trumbore triangle intersectors

    A shallow embedding of [kernels/xeon/geometry/triangle_intersector_moeller.h]
    and the properties of its intersect / occluded kernels.

    Modelling conventions.
    - A [vfloat<M>] is a list of lanes.  Lane values are exact rationals
      ([Qc]): the development is about the comparisons, masks and control
      flow of the kernels, not about rounding, NaNs or signed zeros.
    - A [vbool<M>] is a list of booleans, a [vint<M>] a list of integers.
    - [signmsk(den)] keeps the sign bit of each lane and [x ^ signmsk(den)]
      flips the sign of [x] on the lanes where that bit is set.
    - A ray is passed by reference in the source; here every kernel takes the
      ray and returns the ray it leaves behind.
    - The compile-time switches ([RTCORE_BACKFACE_CULLING], ...) are the
      fields of a [Config] record. *)

From Stdlib Require Import QArith Qcanon Qcabs.
From stdpp Require Import base numbers list.

#[global] Instance Qc_inhabited : Inhabited Qc := populate 0%Qc.

Abbreviation vfloat := (list Qc) (only parsing).
Abbreviation vbool := (list bool) (only parsing).
Abbreviation vint := (list Z) (only parsing).

(** ** Lane-wise operations of the SIMD wrapper types *)

(** Modelled from the spec: the wrapper types and their operators are
    declared in headers outside this file.  Each operator acts lane by lane;
    [rcp] is the exact reciprocal (and reads 0 at 0, a lane no kernel ever
    reports); [none] holds when no lane of a mask is set.  Reading a lane
    past the width of a vector, which the source leaves undefined, reads 0
    here, and writing one leaves the vector as it was. *)

Definition broadcast (M : nat) (a : Qc) : vfloat := replicate M a.

Definition vadd (a b : vfloat) : vfloat := zip_with Qcplus a b.
Definition vsub (a b : vfloat) : vfloat := zip_with Qcminus a b.
Definition vmul (a b : vfloat) : vfloat := zip_with Qcmult a b.
Definition abs (a : vfloat) : vfloat := Qcabs <$> a.
Definition rcp (a : vfloat) : vfloat := Qcinv <$> a.

Definition signmsk (a : vfloat) : vbool := (λ d, bool_decide (d < 0)%Qc) <$> a.
Definition vxor (a : vfloat) (s : vbool) : vfloat :=
  zip_with (λ x (b : bool), if b then (- x)%Qc else x) a s.

Definition vgt (a b : vfloat) : vbool := zip_with (λ x y, bool_decide (y < x)%Qc) a b.
Definition vlt (a b : vfloat) : vbool := zip_with (λ x y, bool_decide (x < y)%Qc) a b.
Definition vge (a b : vfloat) : vbool := zip_with (λ x y, bool_decide (y ≤ x)%Qc) a b.
Definition vle (a b : vfloat) : vbool := zip_with (λ x y, bool_decide (x ≤ y)%Qc) a b.
Definition vne (a b : vfloat) : vbool := zip_with (λ x y, bool_decide (x ≠ y)) a b.
Definition vand (a b : vbool) : vbool := zip_with andb a b.
Definition vnot (a : vbool) : vbool := negb <$> a.

Definition none (valid : vbool) : bool := forallb negb valid.

(** The mask a [vbool<K>] function answers on [return false]. *)
Definition broadcast_false (K : nat) : vbool := replicate K false.

Declare Scope simd_scope.
Delimit Scope simd_scope with simd.
Notation "a + b" := (vadd a b) : simd_scope.
Notation "a - b" := (vsub a b) : simd_scope.
Notation "a * b" := (vmul a b) : simd_scope.
Notation "a ^ s" := (vxor a s) : simd_scope.
Notation "a > b" := (vgt a b) : simd_scope.
Notation "a < b" := (vlt a b) : simd_scope.
Notation "a >= b" := (vge a b) : simd_scope.
Notation "a <= b" := (vle a b) : simd_scope.
Notation "a != b" := (vne a b) (at level 70) : simd_scope.
Notation "a && b" := (vand a b) : simd_scope.

(** ** Three-component vectors *)

Record Vec3 (A : Type) : Type := mkVec3 { vx : A; vy : A; vz : A }.
Arguments mkVec3 {A} _ _ _.
Arguments vx {A} _.
Arguments vy {A} _.
Arguments vz {A} _.

Definition Vec3_broadcast (M : nat) (a : Vec3 Qc) : Vec3 vfloat :=
  mkVec3 (broadcast M (vx a)) (broadcast M (vy a)) (broadcast M (vz a)).

(** [broadcast<tsimdf>(a,k)]: lane [k] of a packet vector, replicated. *)
Definition Vec3_broadcast_lane (M : nat) (a : Vec3 vfloat) (k : nat) : Vec3 vfloat :=
  mkVec3 (broadcast M (vx a !!! k)) (broadcast M (vy a !!! k)) (broadcast M (vz a !!! k)).

Definition Vec3_add (a b : Vec3 vfloat) : Vec3 vfloat :=
  mkVec3 (vx a + vx b)%simd (vy a + vy b)%simd (vz a + vz b)%simd.
Definition Vec3_sub (a b : Vec3 vfloat) : Vec3 vfloat :=
  mkVec3 (vx a - vx b)%simd (vy a - vy b)%simd (vz a - vz b)%simd.
Definition Vec3_scale (s : vfloat) (a : Vec3 vfloat) : Vec3 vfloat :=
  mkVec3 (s * vx a)%simd (s * vy a)%simd (s * vz a)%simd.

Definition cross (a b : Vec3 vfloat) : Vec3 vfloat :=
  mkVec3 (vy a * vz b - vz a * vy b)%simd
         (vz a * vx b - vx a * vz b)%simd
         (vx a * vy b - vy a * vx b)%simd.
Definition dot (a b : Vec3 vfloat) : vfloat :=
  (vx a * vx b + vy a * vy b + vz a * vz b)%simd.

(** Lane [i] of a vector of lanes, as a scalar vector
    ([Vec3fa(tri_Ng.x[i],tri_Ng.y[i],tri_Ng.z[i])]). *)
Definition Vec3_lane (a : Vec3 vfloat) (i : nat) : Vec3 Qc :=
  mkVec3 (vx a !!! i) (vy a !!! i) (vz a !!! i).

(** ** Build configuration *)

Record Config : Type := mkConfig {
  RTCORE_BACKFACE_CULLING : bool;
  RTCORE_INTERSECTION_FILTER : bool;
  RTCORE_RAY_MASK : bool
}.

(** ** Rays *)

Module Ray.
Record t : Type := mk {
  org : Vec3 Qc; dir : Vec3 Qc;
  tnear : Qc; tfar : Qc; time : Qc; mask : Z;
  u : Qc; v : Qc; Ng : Vec3 Qc; geomID : Z; primID : Z
}.
End Ray.

Module RayK.
Record t : Type := mk {
  org : Vec3 vfloat; dir : Vec3 vfloat;
  tnear : vfloat; tfar : vfloat; time : vfloat; mask : vint;
  u : vfloat; v : vfloat; Ng : Vec3 vfloat; geomID : vint; primID : vint
}.
End RayK.

(** What the hit lambda handed to an epilog produces: [(u,v,t,Ng)]. *)
Definition Hit : Type := vfloat * vfloat * vfloat * Vec3 vfloat.

(** An epilog is called with the mask of surviving lanes and the lazy hit;
    it acts on the state [St] it was bound to and answers [R]. *)
Definition Epilog (St R : Type) : Type := vbool → (unit → Hit) → St → R * St.

(** ** [moeller_trumbore_intersect1]: one ray against M triangles *)

Section intersect1.
Variable cfg : Config.
Variable M : nat.

Definition moeller_trumbore_intersect1 (ray : Ray.t)
    (tri_v0 tri_e1 tri_e2 tri_Ng : Vec3 vfloat)
    (epilog : Epilog Ray.t bool) : bool * Ray.t :=
  (* calculate denominator *)
  let O := Vec3_broadcast M (Ray.org ray) in
  let D := Vec3_broadcast M (Ray.dir ray) in
  let C := Vec3_sub tri_v0 O in
  let R := cross D C in
  let den := dot tri_Ng D in
  let absDen := abs den in
  let sgnDen := signmsk den in
  (* perform edge tests *)
  let U := (dot R tri_e2 ^ sgnDen)%simd in
  let V := (dot R tri_e1 ^ sgnDen)%simd in
  (* perform backface culling *)
  let valid :=
    if RTCORE_BACKFACE_CULLING cfg
    then ((den > broadcast M 0) && (U >= broadcast M 0) && (V >= broadcast M 0)
          && (U + V <= absDen))%simd
    else ((den != broadcast M 0) && (U >= broadcast M 0) && (V >= broadcast M 0)
          && (U + V <= absDen))%simd in
  if none valid then (false, ray) else
  (* perform depth test *)
  let T := (dot tri_Ng C ^ sgnDen)%simd in
  let valid := (valid && ((T > absDen * broadcast M (Ray.tnear ray))
                          && (T < absDen * broadcast M (Ray.tfar ray))))%simd in
  if none valid then (false, ray) else
  (* update hit information *)
  epilog valid (λ _,
    let rcpAbsDen := rcp absDen in
    let u := (U * rcpAbsDen)%simd in
    let v := (V * rcpAbsDen)%simd in
    let t := (T * rcpAbsDen)%simd in
    (u, v, t, tri_Ng)) ray.

(** The overload taking the three vertices. *)
Definition moeller_trumbore_intersect1_v (ray : Ray.t)
    (v0 v1 v2 : Vec3 vfloat) (epilog : Epilog Ray.t bool) : bool * Ray.t :=
  let e1 := Vec3_sub v0 v1 in
  let e2 := Vec3_sub v2 v0 in
  let Ng := cross e1 e2 in
  moeller_trumbore_intersect1 ray v0 e1 e2 Ng epilog.

End intersect1.

(** ** [moeller_trumbore_intersectK]: K rays against one triangle

    The triangle is already broadcast to the K ray lanes.  The epilog acts
    on a state [St]: the ray packet for [IntersectKEpilog], the packet and
    the mask [valid0] of still unoccluded rays for [OccludedKEpilog].  An
    early [return false] answers the all-false mask and leaves the state. *)

Section intersectK.
Variable cfg : Config.
Variable K : nat.
Context {St : Type}.

Definition moeller_trumbore_intersectK (valid0 : vbool) (ray : RayK.t)
    (tri_v0 tri_e1 tri_e2 tri_Ng : Vec3 vfloat)
    (epilog : Epilog St vbool) (st : St) : vbool * St :=
  (* calculate denominator *)
  let valid := valid0 in
  let C := Vec3_sub tri_v0 (RayK.org ray) in
  let R := cross (RayK.dir ray) C in
  let den := dot tri_Ng (RayK.dir ray) in
  let absDen := abs den in
  let sgnDen := signmsk den in
  (* test against edge p2 p0 *)
  let U := (dot R tri_e2 ^ sgnDen)%simd in
  let valid := (valid && (U >= broadcast K 0))%simd in
  if none valid then (broadcast_false K, st) else
  (* test against edge p0 p1 *)
  let V := (dot R tri_e1 ^ sgnDen)%simd in
  let valid := (valid && (V >= broadcast K 0))%simd in
  if none valid then (broadcast_false K, st) else
  (* test against edge p1 p2 *)
  let W := (absDen - U - V)%simd in
  let valid := (valid && (W >= broadcast K 0))%simd in
  if none valid then (broadcast_false K, st) else
  (* perform depth test *)
  let T := (dot tri_Ng C ^ sgnDen)%simd in
  let valid := (valid && ((T >= absDen * RayK.tnear ray)
                          && (absDen * RayK.tfar ray >= T)))%simd in
  if none valid then (broadcast_false K, st) else
  (* perform backface culling *)
  let valid :=
    if RTCORE_BACKFACE_CULLING cfg
    then (valid && (den > broadcast K 0))%simd
    else (valid && (den != broadcast K 0))%simd in
  if none valid then (broadcast_false K, st) else
  (* calculate hit information *)
  epilog valid (λ _,
    let rcpAbsDen := rcp absDen in
    let u := (U * rcpAbsDen)%simd in
    let v := (V * rcpAbsDen)%simd in
    let t := (T * rcpAbsDen)%simd in
    (u, v, t, tri_Ng)) st.

(** The overload taking the three vertices. *)
Definition moeller_trumbore_intersectK_v (valid0 : vbool) (ray : RayK.t)
    (tri_v0 tri_v1 tri_v2 : Vec3 vfloat)
    (epilog : Epilog St vbool) (st : St) : vbool * St :=
  let e1 := Vec3_sub tri_v0 tri_v1 in
  let e2 := Vec3_sub tri_v2 tri_v0 in
  let Ng := cross e1 e2 in
  moeller_trumbore_intersectK valid0 ray tri_v0 e1 e2 Ng epilog st.

End intersectK.

(** ** Scene collaborators of the per-lane kernels *)

(** The part of a [Geometry] the kernels read. *)
Module Geometry.
Record t : Type := mk {
  mask : Z;
  hasIntersectionFilter : bool;
  hasOcclusionFilter : bool
}.
End Geometry.

(** [scene->get(geomID)]. *)
Definition Scene : Type := Z → Geometry.t.

(** [runIntersectionFilter] and [runOcclusionFilter]: called with the
    geometry, the packet, the ray's lane [k] and the candidate
    [(u,v,t,Ng,geomID,primID)]; they answer accept / reject and, holding
    the packet by reference, leave a packet behind. *)
Definition Filter : Type :=
  Geometry.t → RayK.t → nat → Qc → Qc → Qc → Vec3 Qc → Z → Z → bool * RayK.t.

(** ** Lane selection *)

(** Modelled from the spec: [select_min(valid,t)] is not in the source file.
    It selects the lane with minimum [t] among the valid lanes; among lanes
    with equal [t] the lowest lane index wins, which makes the choice
    deterministic.  [select_min_opt] answers the lane and its [t], or [None]
    when no lane is valid. *)
Fixpoint select_min_opt (valid : vbool) (t : vfloat) : option (nat * Qc) :=
  match valid, t with
  | b :: valid', x :: t' =>
      let r := select_min_opt valid' t' in
      if b : bool then
        match r with
        | Some (j, m) => if bool_decide (m < x)%Qc then Some (S j, m) else Some (0%nat, x)
        | None => Some (0%nat, x)
        end
      else
        match r with
        | Some (j, m) => Some (S j, m)
        | None => None
        end
  | _, _ => None
  end.

Definition select_min (valid : vbool) (t : vfloat) : nat :=
  match select_min_opt valid t with
  | Some (i, _) => i
  | None => 0%nat
  end.

(** Modelled from the spec: [movemask], [__bsf] and [__btc] come from headers
    outside this file; they walk the set lanes of a mask from the lowest
    index up.  [movemask(valid)]: bit [i] of the result is lane [i] of the
    mask. *)
Fixpoint movemask (valid : vbool) : N :=
  match valid with
  | [] => 0%N
  | b :: valid' => (N.b2n b + 2 * movemask valid')%N
  end.

(** Index of the lowest set bit (bit scan forward). *)
Fixpoint Pos_ctz (p : positive) : nat :=
  match p with
  | xO q => S (Pos_ctz q)
  | _ => 0%nat
  end.

Definition __bsf (m : N) : nat :=
  match m with
  | N0 => 0%nat
  | Npos p => Pos_ctz p
  end.

(** Bit test and complement: flips bit [i] of [m]. *)
Definition __btc (m : N) (i : nat) : N := N.lxor m (N.shiftl 1 (N.of_nat i)).

Fixpoint Pos_popcnt (p : positive) : nat :=
  match p with
  | xH => 1%nat
  | xO q => Pos_popcnt q
  | xI q => S (Pos_popcnt q)
  end.

Definition popcnt (m : N) : nat :=
  match m with
  | N0 => 0%nat
  | Npos p => Pos_popcnt p
  end.

(** Number of set lanes of a mask. *)
Fixpoint popcnt_mask (valid : vbool) : nat :=
  match valid with
  | [] => 0%nat
  | b :: valid' => (Nat.b2n b + popcnt_mask valid')%nat
  end.

(** The mask after the lanes [sel] were cleared, one [valid[i] = 0] each. *)
Definition clear_lanes (valid : vbool) (sel : list nat) : vbool :=
  foldl (λ valid i, <[i := false]> valid) valid sel.

(** ** Per-lane kernels: ray [k] of a packet against M triangles *)

(** How the filter loop of the intersect kernel is left: by a [return]
    inside the loop, or by [break] with lane [i] selected, which falls
    through to the block that updates the hit. *)
Inductive loop_exit : Type :=
  | Return (ray : RayK.t)
  | Break (i : nat) (ray : RayK.t).

(** What one pass through a loop body decides: to leave the loop with a
    result, or to clear the selected lane and [continue] with the packet
    as the filter left it. *)
Inductive pass (A : Type) : Type :=
  | Leave (a : A)
  | Next (ray : RayK.t).
Arguments Leave {A} _.
Arguments Next {A} _.

(** The "update hit information" block. *)
Definition update_hit (ray : RayK.t) (k : nat) (u v t : Qc) (Ng : Vec3 Qc)
    (geomID primID : Z) : RayK.t :=
  RayK.mk (RayK.org ray) (RayK.dir ray) (RayK.tnear ray)
    (<[k := t]> (RayK.tfar ray)) (RayK.time ray) (RayK.mask ray)
    (<[k := u]> (RayK.u ray)) (<[k := v]> (RayK.v ray))
    (mkVec3 (<[k := vx Ng]> (vx (RayK.Ng ray)))
            (<[k := vy Ng]> (vy (RayK.Ng ray)))
            (<[k := vz Ng]> (vz (RayK.Ng ray))))
    (<[k := geomID]> (RayK.geomID ray)) (<[k := primID]> (RayK.primID ray)).

Section per_lane.
Variable cfg : Config.
Variable enableIntersectionFilter : bool.
Variable M : nat.
Variable scene : Scene.
Variable runIntersectionFilter : Filter.
Variable runOcclusionFilter : Filter.

(** One pass through the body of the intersect loop, from the label
    [entry] on, for the selected lane [i]: the mask test, then the filter. *)
Definition intersect_k_pass (k : nat) (u v t : vfloat)
    (tri_Ng : Vec3 vfloat) (tri_geomIDs tri_primIDs : vint)
    (ray : RayK.t) (i : nat) : pass loop_exit :=
  let geomID := tri_geomIDs !!! i in
  let geometry := scene geomID in
  if RTCORE_RAY_MASK cfg
     && (Z.land (Geometry.mask geometry) (RayK.mask ray !!! k) =? 0)%Z
  then (* goto next hit if mask test fails *)
    Next ray
  else if RTCORE_INTERSECTION_FILTER cfg && enableIntersectionFilter
          && Geometry.hasIntersectionFilter geometry
  then (* call intersection filter function *)
    let Ng := Vec3_lane tri_Ng i in
    let '(accepted, ray) :=
      runIntersectionFilter geometry ray k (u !!! i) (v !!! i) (t !!! i) Ng
        geomID (tri_primIDs !!! i) in
    if accepted then Leave (Return ray) else Next ray
  else Leave (Break i ray).

(** The loop of the intersect kernel, entered at [entry] with lane [i]
    selected.  [fuel] bounds the number of passes; the list in the result
    is the sequence of lanes selected, in order (a ghost log, the source
    keeps none). *)
Fixpoint intersect_k_loop (fuel : nat) (k : nat) (u v t : vfloat)
    (tri_Ng : Vec3 vfloat) (tri_geomIDs tri_primIDs : vint)
    (ray : RayK.t) (valid : vbool) (i : nat) : option (list nat * loop_exit) :=
  match fuel with
  | O => None
  | S fuel' =>
      match intersect_k_pass k u v t tri_Ng tri_geomIDs tri_primIDs ray i with
      | Leave e => Some ([i], e)
      | Next ray =>
          (* valid[i] = 0; continue; *)
          let valid := <[i := false]> valid in
          if none valid then Some ([i], Return ray) else
          let i' := select_min valid t in
          match intersect_k_loop fuel' k u v t tri_Ng tri_geomIDs tri_primIDs
                  ray valid i' with
          | Some (sel, e) => Some (i :: sel, e)
          | None => None
          end
      end
  end.

Definition triangle_intersect_moeller_trumbore_k_log (ray : RayK.t) (k : nat)
    (tri_v0 tri_e1 tri_e2 tri_Ng : Vec3 vfloat)
    (tri_geomIDs tri_primIDs : vint) : option (list nat * RayK.t) :=
  (* calculate denominator *)
  let O := Vec3_broadcast_lane M (RayK.org ray) k in
  let D := Vec3_broadcast_lane M (RayK.dir ray) k in
  let C := Vec3_sub tri_v0 O in
  let R := cross D C in
  let den := dot tri_Ng D in
  let absDen := abs den in
  let sgnDen := signmsk den in
  (* perform edge tests *)
  let U := (dot R tri_e2 ^ sgnDen)%simd in
  let V := (dot R tri_e1 ^ sgnDen)%simd in
  (* perform backface culling *)
  let valid :=
    if RTCORE_BACKFACE_CULLING cfg
    then ((den > broadcast M 0) && (U >= broadcast M 0) && (V >= broadcast M 0)
          && (U + V <= absDen))%simd
    else ((den != broadcast M 0) && (U >= broadcast M 0) && (V >= broadcast M 0)
          && (U + V <= absDen))%simd in
  if none valid then Some ([], ray) else
  (* perform depth test *)
  let T := (dot tri_Ng C ^ sgnDen)%simd in
  let valid := (valid && ((T > absDen * broadcast M (RayK.tnear ray !!! k))
                          && (T < absDen * broadcast M (RayK.tfar ray !!! k))))%simd in
  if none valid then Some ([], ray) else
  (* calculate hit information *)
  let rcpAbsDen := rcp absDen in
  let u := (U * rcpAbsDen)%simd in
  let v := (V * rcpAbsDen)%simd in
  let t := (T * rcpAbsDen)%simd in
  let i := select_min valid t in
  (* intersection filter test *)
  let left :=
    if RTCORE_INTERSECTION_FILTER cfg || RTCORE_RAY_MASK cfg
    then intersect_k_loop (length valid) k u v t tri_Ng tri_geomIDs tri_primIDs
           ray valid i
    else Some ([i], Break i ray) in
  match left with
  | None => None
  | Some (sel, Return ray) => Some (sel, ray)
  | Some (sel, Break i ray) =>
      (* update hit information *)
      Some (sel, update_hit ray k (u !!! i) (v !!! i) (t !!! i) (Vec3_lane tri_Ng i)
                   (tri_geomIDs !!! i) (tri_primIDs !!! i))
  end.

(** The kernel proper: the ray it leaves behind ([None]: out of fuel,
    which [triangle_intersect_moeller_trumbore_k_total] excludes). *)
Definition triangle_intersect_moeller_trumbore_k (ray : RayK.t) (k : nat)
    (tri_v0 tri_e1 tri_e2 tri_Ng : Vec3 vfloat)
    (tri_geomIDs tri_primIDs : vint) : option RayK.t :=
  snd <$> triangle_intersect_moeller_trumbore_k_log ray k tri_v0 tri_e1 tri_e2
            tri_Ng tri_geomIDs tri_primIDs.

(** One pass through the body of the occluded loop for the lane [i]. *)
Definition occluded_k_pass (k : nat) (absDen U V T : vfloat)
    (tri_Ng : Vec3 vfloat) (tri_geomIDs tri_primIDs : vint)
    (ray : RayK.t) (i : nat) : pass (bool * RayK.t) :=
  let geomID := tri_geomIDs !!! i in
  let geometry := scene geomID in
  if RTCORE_RAY_MASK cfg
     && (Z.land (Geometry.mask geometry) (RayK.mask ray !!! k) =? 0)%Z
  then (* goto next hit if mask test fails *)
    Next ray
  else if RTCORE_INTERSECTION_FILTER cfg && enableIntersectionFilter
          && Geometry.hasOcclusionFilter geometry
  then (* execute occlusion filter *)
    let rcpAbsDen := rcp absDen in
    let u := (U * rcpAbsDen)%simd in
    let v := (V * rcpAbsDen)%simd in
    let t := (T * rcpAbsDen)%simd in
    let Ng := Vec3_lane tri_Ng i in
    let '(accepted, ray) :=
      runOcclusionFilter geometry ray k (u !!! i) (v !!! i) (t !!! i) Ng
        geomID (tri_primIDs !!! i) in
    if accepted then Leave (true, ray) else Next ray
  else Leave (true, ray).

(** The loop of the occluded kernel, entered at [entry] with the bit mask
    [m] of remaining lanes.  The result carries the lanes visited (a ghost
    log), the answer and the packet. *)
Fixpoint occluded_k_loop (fuel : nat) (k : nat) (absDen U V T : vfloat)
    (tri_Ng : Vec3 vfloat) (tri_geomIDs tri_primIDs : vint)
    (ray : RayK.t) (m : N) : option (list nat * (bool * RayK.t)) :=
  match fuel with
  | O => None
  | S fuel' =>
      (* entry: *)
      let i := __bsf m in
      match occluded_k_pass k absDen U V T tri_Ng tri_geomIDs tri_primIDs ray i with
      | Leave r => Some ([i], r)
      | Next ray =>
          (* m = __btc(m,i); continue; *)
          let m := __btc m i in
          if (m =? 0)%N then Some ([i], (false, ray)) else
          match occluded_k_loop fuel' k absDen U V T tri_Ng tri_geomIDs tri_primIDs
                  ray m with
          | Some (sel, r) => Some (i :: sel, r)
          | None => None
          end
      end
  end.

Definition triangle_occluded_moeller_trumbore_k_log (ray : RayK.t) (k : nat)
    (tri_v0 tri_e1 tri_e2 tri_Ng : Vec3 vfloat)
    (tri_geomIDs tri_primIDs : vint) : option (list nat * (bool * RayK.t)) :=
  (* calculate denominator *)
  let O := Vec3_broadcast_lane M (RayK.org ray) k in
  let D := Vec3_broadcast_lane M (RayK.dir ray) k in
  let C := Vec3_sub tri_v0 O in
  let R := cross D C in
  let den := dot tri_Ng D in
  let absDen := abs den in
  let sgnDen := signmsk den in
  (* perform edge tests *)
  let U := (dot R tri_e2 ^ sgnDen)%simd in
  let V := (dot R tri_e1 ^ sgnDen)%simd in
  let W := (absDen - U - V)%simd in
  let valid := ((U >= broadcast M 0) && (V >= broadcast M 0)
                && (W >= broadcast M 0))%simd in
  if none valid then Some ([], (false, ray)) else
  (* perform depth test *)
  let T := (dot tri_Ng C ^ sgnDen)%simd in
  let valid := (valid && ((T >= absDen * broadcast M (RayK.tnear ray !!! k))
                          && (absDen * broadcast M (RayK.tfar ray !!! k) >= T)))%simd in
  if none valid then Some ([], (false, ray)) else
  (* perform backface culling *)
  let valid :=
    if RTCORE_BACKFACE_CULLING cfg
    then (valid && (den > broadcast M 0))%simd
    else (valid && (den != broadcast M 0))%simd in
  if none valid then Some ([], (false, ray)) else
  (* intersection filter test *)
  if RTCORE_INTERSECTION_FILTER cfg || RTCORE_RAY_MASK cfg
  then occluded_k_loop (length valid) k absDen U V T tri_Ng tri_geomIDs tri_primIDs
         ray (movemask valid)
  else Some ([], (true, ray)).

Definition triangle_occluded_moeller_trumbore_k (ray : RayK.t) (k : nat)
    (tri_v0 tri_e1 tri_e2 tri_Ng : Vec3 vfloat)
    (tri_geomIDs tri_primIDs : vint) : option (bool * RayK.t) :=
  snd <$> triangle_occluded_moeller_trumbore_k_log ray k tri_v0 tri_e1 tri_e2
            tri_Ng tri_geomIDs tri_primIDs.

End per_lane.

(** ** Triangle batches *)

(** The batch types are declared outside this file; the records keep the
    fields the intersectors read.  Modelled from the spec: "a lane may be
    marked invalid (batch not fully populated)" is the per-lane flag
    [valid], read by [tri.valid(i)]. *)
Module TriangleN.
Record t : Type := mk {
  v0 : Vec3 vfloat; e1 : Vec3 vfloat; e2 : Vec3 vfloat; Ng : Vec3 vfloat;
  geomIDs : vint; primIDs : vint; valid : vbool
}.
End TriangleN.

Module TriangleNMblur.
Record t : Type := mk {
  v0 : Vec3 vfloat; v1 : Vec3 vfloat; v2 : Vec3 vfloat;
  dv0 : Vec3 vfloat; dv1 : Vec3 vfloat; dv2 : Vec3 vfloat;
  geomIDs : vint; primIDs : vint; valid : vbool
}.
End TriangleNMblur.

Module TrianglePairsN.
Record t : Type := mk {
  v0 : Vec3 vfloat; e1 : Vec3 vfloat; e2 : Vec3 vfloat;
  geomIDs : vint; primIDs : vint
}.
End TrianglePairsN.

(** ** The intersector structs *)

Section intersectors.
Variable cfg : Config.
Variable enableIntersectionFilter : bool.
Variable M K : nat.
Variable scene : Scene.
Variable runIntersectionFilter : Filter.
Variable runOcclusionFilter : Filter.

(** The epilogs of [intersector_epilog.h], bound to the batch's ids (and,
    for the packet epilogs, to the triangle lane [i]). *)
Variable Intersect1Epilog : vint → vint → Epilog Ray.t bool.
Variable Occluded1Epilog : vint → vint → Epilog Ray.t bool.
Variable IntersectKEpilog : vint → vint → nat → Epilog RayK.t vbool.
Variable OccludedKEpilog : vint → vint → nat → Epilog (vbool * RayK.t) vbool.

(** *** [TriangleNIntersector1MoellerTrumbore] *)

Definition TriangleNIntersector1_intersect (ray : Ray.t) (tri : TriangleN.t) : Ray.t :=
  snd (moeller_trumbore_intersect1 cfg M ray
         (TriangleN.v0 tri) (TriangleN.e1 tri) (TriangleN.e2 tri) (TriangleN.Ng tri)
         (Intersect1Epilog (TriangleN.geomIDs tri) (TriangleN.primIDs tri))).

Definition TriangleNIntersector1_occluded (ray : Ray.t) (tri : TriangleN.t) : bool * Ray.t :=
  moeller_trumbore_intersect1 cfg M ray
    (TriangleN.v0 tri) (TriangleN.e1 tri) (TriangleN.e2 tri) (TriangleN.Ng tri)
    (Occluded1Epilog (TriangleN.geomIDs tri) (TriangleN.primIDs tri)).

(** *** [TrianglePairsNIntersector1MoellerTrumbore] (marked "FIXME: not
    working" in the source): the four-argument call resolves to the vertex
    overload, which receives [tri.e1] and [tri.e2] as [v1] and [v2]. *)

Definition TrianglePairsNIntersector1_intersect (ray : Ray.t) (tri : TrianglePairsN.t)
    : Ray.t :=
  snd (moeller_trumbore_intersect1_v cfg M ray
         (TrianglePairsN.v0 tri) (TrianglePairsN.e1 tri) (TrianglePairsN.e2 tri)
         (Intersect1Epilog (TrianglePairsN.geomIDs tri) (TrianglePairsN.primIDs tri))).

Definition TrianglePairsNIntersector1_occluded (ray : Ray.t) (tri : TrianglePairsN.t)
    : bool * Ray.t :=
  moeller_trumbore_intersect1_v cfg M ray
    (TrianglePairsN.v0 tri) (TrianglePairsN.e1 tri) (TrianglePairsN.e2 tri)
    (Occluded1Epilog (TrianglePairsN.geomIDs tri) (TrianglePairsN.primIDs tri)).

(** *** [TriangleNIntersectorMMoellerTrumbore] *)

(** The body of [for (size_t i=0; i<TriangleM::max_size(); i++)], over the
    lanes still to visit. *)
Fixpoint TriangleNIntersectorM_intersect_loop (valid_i : vbool) (tri : TriangleN.t)
    (lanes : list nat) (ray : RayK.t) : RayK.t :=
  match lanes with
  | [] => ray
  | i :: lanes' =>
      if negb (TriangleN.valid tri !!! i) then ray (* break *) else
      let p0 := Vec3_broadcast_lane K (TriangleN.v0 tri) i in
      let e1 := Vec3_broadcast_lane K (TriangleN.e1 tri) i in
      let e2 := Vec3_broadcast_lane K (TriangleN.e2 tri) i in
      let Ng := Vec3_broadcast_lane K (TriangleN.Ng tri) i in
      let ray := snd (moeller_trumbore_intersectK cfg K valid_i ray p0 e1 e2 Ng
                        (IntersectKEpilog (TriangleN.geomIDs tri) (TriangleN.primIDs tri) i)
                        ray) in
      TriangleNIntersectorM_intersect_loop valid_i tri lanes' ray
  end.

Definition TriangleNIntersectorM_intersect (valid_i : vbool) (ray : RayK.t)
    (tri : TriangleN.t) : RayK.t :=
  TriangleNIntersectorM_intersect_loop valid_i tri (seq 0 M) ray.

Fixpoint TriangleNIntersectorM_occluded_loop (tri : TriangleN.t)
    (lanes : list nat) (st : vbool * RayK.t) : vbool * RayK.t :=
  match lanes with
  | [] => st
  | i :: lanes' =>
      if negb (TriangleN.valid tri !!! i) then st (* break *) else
      let p0 := Vec3_broadcast_lane K (TriangleN.v0 tri) i in
      let e1 := Vec3_broadcast_lane K (TriangleN.e1 tri) i in
      let e2 := Vec3_broadcast_lane K (TriangleN.e2 tri) i in
      let Ng := Vec3_broadcast_lane K (TriangleN.Ng tri) i in
      let st := snd (moeller_trumbore_intersectK cfg K (fst st) (snd st) p0 e1 e2 Ng
                       (OccludedKEpilog (TriangleN.geomIDs tri) (TriangleN.primIDs tri) i)
                       st) in
      if none (fst st) then st (* break *) else
      TriangleNIntersectorM_occluded_loop tri lanes' st
  end.

Definition TriangleNIntersectorM_occluded (valid_i : vbool) (ray : RayK.t)
    (tri : TriangleN.t) : vbool * RayK.t :=
  let st := TriangleNIntersectorM_occluded_loop tri (seq 0 M) (valid_i, ray) in
  (vnot (fst st), snd st).

Definition TriangleNIntersectorM_intersect_k (ray : RayK.t) (k : nat)
    (tri : TriangleN.t) : option RayK.t :=
  triangle_intersect_moeller_trumbore_k cfg enableIntersectionFilter M scene
    runIntersectionFilter ray k
    (TriangleN.v0 tri) (TriangleN.e1 tri) (TriangleN.e2 tri) (TriangleN.Ng tri)
    (TriangleN.geomIDs tri) (TriangleN.primIDs tri).

Definition TriangleNIntersectorM_occluded_k (ray : RayK.t) (k : nat)
    (tri : TriangleN.t) : option (bool * RayK.t) :=
  triangle_occluded_moeller_trumbore_k cfg enableIntersectionFilter M scene
    runOcclusionFilter ray k
    (TriangleN.v0 tri) (TriangleN.e1 tri) (TriangleN.e2 tri) (TriangleN.Ng tri)
    (TriangleN.geomIDs tri) (TriangleN.primIDs tri).

(** *** [TriangleNMblurIntersector1MoellerTrumbore] *)

Definition TriangleNMblurIntersector1_intersect (ray : Ray.t) (tri : TriangleNMblur.t)
    : Ray.t :=
  let time := broadcast M (Ray.time ray) in
  let v0 := Vec3_add (TriangleNMblur.v0 tri) (Vec3_scale time (TriangleNMblur.dv0 tri)) in
  let v1 := Vec3_add (TriangleNMblur.v1 tri) (Vec3_scale time (TriangleNMblur.dv1 tri)) in
  let v2 := Vec3_add (TriangleNMblur.v2 tri) (Vec3_scale time (TriangleNMblur.dv2 tri)) in
  snd (moeller_trumbore_intersect1_v cfg M ray v0 v1 v2
         (Intersect1Epilog (TriangleNMblur.geomIDs tri) (TriangleNMblur.primIDs tri))).

Definition TriangleNMblurIntersector1_occluded (ray : Ray.t) (tri : TriangleNMblur.t)
    : bool * Ray.t :=
  let time := broadcast M (Ray.time ray) in
  let v0 := Vec3_add (TriangleNMblur.v0 tri) (Vec3_scale time (TriangleNMblur.dv0 tri)) in
  let v1 := Vec3_add (TriangleNMblur.v1 tri) (Vec3_scale time (TriangleNMblur.dv1 tri)) in
  let v2 := Vec3_add (TriangleNMblur.v2 tri) (Vec3_scale time (TriangleNMblur.dv2 tri)) in
  moeller_trumbore_intersect1_v cfg M ray v0 v1 v2
    (Occluded1Epilog (TriangleNMblur.geomIDs tri) (TriangleNMblur.primIDs tri)).

(** *** [TriangleNMblurIntersectorMMoellerTrumbore]

    Only the packet operations are embedded.  The per-lane operations of
    this struct call [triangle_intersect_moeller_trumbore_k] and
    [triangle_occluded_moeller_trumbore_k] with eight arguments, which
    matches neither overload (both take nine), and the vertex overloads
    themselves pass ten arguments on: these templates cannot be
    instantiated. *)

Fixpoint TriangleNMblurIntersectorM_intersect_loop (valid_i : vbool)
    (tri : TriangleNMblur.t) (lanes : list nat) (ray : RayK.t) : RayK.t :=
  match lanes with
  | [] => ray
  | i :: lanes' =>
      if negb (TriangleNMblur.valid tri !!! i) then ray (* break *) else
      let time := RayK.time ray in
      let v0 := Vec3_add (Vec3_broadcast_lane K (TriangleNMblur.v0 tri) i)
                  (Vec3_scale time (Vec3_broadcast_lane K (TriangleNMblur.dv0 tri) i)) in
      let v1 := Vec3_add (Vec3_broadcast_lane K (TriangleNMblur.v1 tri) i)
                  (Vec3_scale time (Vec3_broadcast_lane K (TriangleNMblur.dv1 tri) i)) in
      let v2 := Vec3_add (Vec3_broadcast_lane K (TriangleNMblur.v2 tri) i)
                  (Vec3_scale time (Vec3_broadcast_lane K (TriangleNMblur.dv2 tri) i)) in
      let ray := snd (moeller_trumbore_intersectK_v cfg K valid_i ray v0 v1 v2
                        (IntersectKEpilog (TriangleNMblur.geomIDs tri)
                           (TriangleNMblur.primIDs tri) i)
                        ray) in
      TriangleNMblurIntersectorM_intersect_loop valid_i tri lanes' ray
  end.

Definition TriangleNMblurIntersectorM_intersect (valid_i : vbool) (ray : RayK.t)
    (tri : TriangleNMblur.t) : RayK.t :=
  TriangleNMblurIntersectorM_intersect_loop valid_i tri (seq 0 M) ray.

Fixpoint TriangleNMblurIntersectorM_occluded_loop (tri : TriangleNMblur.t)
    (lanes : list nat) (st : vbool * RayK.t) : vbool * RayK.t :=
  match lanes with
  | [] => st
  | i :: lanes' =>
      if negb (TriangleNMblur.valid tri !!! i) then st (* break *) else
      let time := RayK.time (snd st) in
      let v0 := Vec3_add (Vec3_broadcast_lane K (TriangleNMblur.v0 tri) i)
                  (Vec3_scale time (Vec3_broadcast_lane K (TriangleNMblur.dv0 tri) i)) in
      let v1 := Vec3_add (Vec3_broadcast_lane K (TriangleNMblur.v1 tri) i)
                  (Vec3_scale time (Vec3_broadcast_lane K (TriangleNMblur.dv1 tri) i)) in
      let v2 := Vec3_add (Vec3_broadcast_lane K (TriangleNMblur.v2 tri) i)
                  (Vec3_scale time (Vec3_broadcast_lane K (TriangleNMblur.dv2 tri) i)) in
      let st := snd (moeller_trumbore_intersectK_v cfg K (fst st) (snd st) v0 v1 v2
                       (OccludedKEpilog (TriangleNMblur.geomIDs tri)
                          (TriangleNMblur.primIDs tri) i)
                       st) in
      if none (fst st) then st (* break *) else
      TriangleNMblurIntersectorM_occluded_loop tri lanes' st
  end.

Definition TriangleNMblurIntersectorM_occluded (valid_i : vbool) (ray : RayK.t)
    (tri : TriangleNMblur.t) : vbool * RayK.t :=
  let st := TriangleNMblurIntersectorM_occluded_loop tri (seq 0 M) (valid_i, ray) in
  (vnot (fst st), snd st).

End intersectors.

(** ** The quantities and masks of the kernels, named

    Every kernel starts with the same algebra on the ray origin [O], the
    direction [D] and the triangle lanes.  The definitions below name those
    vectors and the masks computed from them, so that statements can speak
    about a lane of [T] or of [absDen]. *)

Section terms.
Variable cfg : Config.
Variables (O D tri_v0 tri_e1 tri_e2 tri_Ng : Vec3 vfloat).

Definition mt_den : vfloat := dot tri_Ng D.
Definition mt_absDen : vfloat := abs mt_den.
Definition mt_U : vfloat :=
  (dot (cross D (Vec3_sub tri_v0 O)) tri_e2 ^ signmsk mt_den)%simd.
Definition mt_V : vfloat :=
  (dot (cross D (Vec3_sub tri_v0 O)) tri_e1 ^ signmsk mt_den)%simd.
Definition mt_T : vfloat :=
  (dot tri_Ng (Vec3_sub tri_v0 O) ^ signmsk mt_den)%simd.

Definition mt_u : vfloat := (mt_U * rcp mt_absDen)%simd.
Definition mt_v : vfloat := (mt_V * rcp mt_absDen)%simd.
Definition mt_t : vfloat := (mt_T * rcp mt_absDen)%simd.

(** The hit lambda. *)
Definition mt_hit : unit → Hit := λ _, (mt_u, mt_v, mt_t, tri_Ng).

(** The mask of [moeller_trumbore_intersect1] and of
    [triangle_intersect_moeller_trumbore_k] after the depth test. *)
Definition mask_intersect (M : nat) (tnear tfar : Qc) : vbool :=
  let valid :=
    if RTCORE_BACKFACE_CULLING cfg
    then ((mt_den > broadcast M 0) && (mt_U >= broadcast M 0)
          && (mt_V >= broadcast M 0) && (mt_U + mt_V <= mt_absDen))%simd
    else ((mt_den != broadcast M 0) && (mt_U >= broadcast M 0)
          && (mt_V >= broadcast M 0) && (mt_U + mt_V <= mt_absDen))%simd in
  (valid && ((mt_T > mt_absDen * broadcast M tnear)
             && (mt_T < mt_absDen * broadcast M tfar)))%simd.

(** The mask of [triangle_occluded_moeller_trumbore_k] after culling. *)
Definition mask_occluded_k (M : nat) (tnear tfar : Qc) : vbool :=
  let valid := ((mt_U >= broadcast M 0) && (mt_V >= broadcast M 0)
                && (mt_absDen - mt_U - mt_V >= broadcast M 0))%simd in
  let valid := (valid && ((mt_T >= mt_absDen * broadcast M tnear)
                          && (mt_absDen * broadcast M tfar >= mt_T)))%simd in
  if RTCORE_BACKFACE_CULLING cfg
  then (valid && (mt_den > broadcast M 0))%simd
  else (valid && (mt_den != broadcast M 0))%simd.

(** The mask of [moeller_trumbore_intersectK] after culling. *)
Definition mask_intersectK (K : nat) (valid0 : vbool) (tnear tfar : vfloat) : vbool :=
  let valid := (valid0 && (mt_U >= broadcast K 0))%simd in
  let valid := (valid && (mt_V >= broadcast K 0))%simd in
  let valid := (valid && (mt_absDen - mt_U - mt_V >= broadcast K 0))%simd in
  let valid := (valid && ((mt_T >= mt_absDen * tnear)
                          && (mt_absDen * tfar >= mt_T)))%simd in
  if RTCORE_BACKFACE_CULLING cfg
  then (valid && (mt_den > broadcast K 0))%simd
  else (valid && (mt_den != broadcast K 0))%simd.

End terms.

(** The sign requirement on the denominator of a lane. *)
Definition facing (cfg : Config) (den : Qc) : Prop :=
  if RTCORE_BACKFACE_CULLING cfg then (0 < den)%Qc else den ≠ 0%Qc.

(** The edge tests of a lane. *)
Definition inside (absDen U V : Qc) : Prop :=
  (0 ≤ U)%Qc ∧ (0 ≤ V)%Qc ∧ (U + V ≤ absDen)%Qc.

(** Lane [i] is selected no later than lane [j]: it is nearer, or as near
    and of lower or equal index. *)
Definition selected_first (t : vfloat) (i j : nat) : Prop :=
  (t !!! i < t !!! j)%Qc ∨ (t !!! i = t !!! j ∧ i ≤ j).

(** The packet a loop exit carries. *)
Definition exit_ray (e : loop_exit) : RayK.t :=
  match e with
  | Return ray => ray
  | Break _ ray => ray
  end.

(** Bit [i] of a lane bit mask. *)
Definition bit (m : N) (i : nat) : bool := N.testbit m (N.of_nat i).

(** ** The per-lane intersect kernel after the depth test *)

Section intersect_k_run.
Variables (cfg : Config) (enableIntersectionFilter : bool) (M : nat).
Variables (scene : Scene) (runIntersectionFilter : Filter).
Variables (ray : RayK.t) (k : nat) (v0 e1 e2 Ng : Vec3 vfloat).
Variables (geomIDs primIDs : vint).

(** The run of the filter loop on the lanes that survived the depth test
    (or, without filter and ray mask, the unconditional selection of the
    nearest lane). *)
Definition intersect_k_run : option (list nat * loop_exit) :=
  let O := Vec3_broadcast_lane M (RayK.org ray) k in
  let D := Vec3_broadcast_lane M (RayK.dir ray) k in
  let valid := mask_intersect cfg O D v0 e1 e2 Ng M
                 (RayK.tnear ray !!! k) (RayK.tfar ray !!! k) in
  let t := mt_t O D v0 Ng in
  if RTCORE_INTERSECTION_FILTER cfg || RTCORE_RAY_MASK cfg
  then intersect_k_loop cfg enableIntersectionFilter scene runIntersectionFilter
         (length valid) k (mt_u O D v0 e2 Ng) (mt_v O D v0 e1 Ng) t Ng
         geomIDs primIDs ray valid (select_min valid t)
  else Some ([select_min valid t], Break (select_min valid t) ray).

(** What the kernel leaves behind on a loop exit: the packet as it is on
    [return], the packet with the hit of lane [i] on [break]. *)
Definition intersect_k_commit (e : loop_exit) : RayK.t :=
  let O := Vec3_broadcast_lane M (RayK.org ray) k in
  let D := Vec3_broadcast_lane M (RayK.dir ray) k in
  match e with
  | Return ray => ray
  | Break i ray =>
      update_hit ray k (mt_u O D v0 e2 Ng !!! i) (mt_v O D v0 e1 Ng !!! i)
        (mt_t O D v0 Ng !!! i) (Vec3_lane Ng i) (geomIDs !!! i) (primIDs !!! i)
  end.

End intersect_k_run.

(** ** Candidates of the per-lane intersect kernel *)

Section candidates.
Variables (cfg : Config) (enableIntersectionFilter : bool).
Variables (scene : Scene) (runIntersectionFilter : Filter).
Variables (k : nat) (u v t : vfloat) (tri_Ng : Vec3 vfloat) (tri_geomIDs tri_primIDs : vint).

(** The ray mask is configured and rejects the geometry of lane [i]. *)
Definition mask_test_fails (ray : RayK.t) (i : nat) : Prop :=
  RTCORE_RAY_MASK cfg = true ∧
  Z.land (Geometry.mask (scene (tri_geomIDs !!! i))) (RayK.mask ray !!! k) = 0%Z.

(** The intersection filter is configured, enabled, and the geometry of
    lane [i] has one. *)
Definition filter_applies (i : nat) : Prop :=
  RTCORE_INTERSECTION_FILTER cfg = true ∧ enableIntersectionFilter = true ∧
  Geometry.hasIntersectionFilter (scene (tri_geomIDs !!! i)) = true.

(** The call of the intersection filter for the candidate of lane [i]. *)
Definition filter_candidate (ray : RayK.t) (i : nat) : bool * RayK.t :=
  runIntersectionFilter (scene (tri_geomIDs !!! i)) ray k
    (u !!! i) (v !!! i) (t !!! i) (Vec3_lane tri_Ng i)
    (tri_geomIDs !!! i) (tri_primIDs !!! i).

(** The hit of lane [i] written into the packet. *)
Definition candidate_hit (ray : RayK.t) (i : nat) : RayK.t :=
  update_hit ray k (u !!! i) (v !!! i) (t !!! i) (Vec3_lane tri_Ng i)
    (tri_geomIDs !!! i) (tri_primIDs !!! i).

(** Lane [i] is rejected with the packet untouched: by the ray mask, or by
    the filter of its geometry. *)
Definition candidate_rejected (ray : RayK.t) (i : nat) : Prop :=
  mask_test_fails ray i
  ∨ (filter_applies i ∧ filter_candidate ray i = (false, ray)).

(** Lane [i] passes the ray mask and the filter of its geometry accepts it,
    leaving the candidate in the ray record. *)
Definition candidate_accepted (ray : RayK.t) (i : nat) : Prop :=
  ¬ mask_test_fails ray i
  ∧ filter_applies i
  ∧ filter_candidate ray i = (true, candidate_hit ray i).

End candidates.

#[global] Instance selected_first_dec t i j : Decision (selected_first t i j).
Proof. unfold selected_first. apply _. Defined.

(** ** The packet loops, lane by lane *)

(** The lanes of [lanes] up to the first one marked invalid. *)
Fixpoint lanes_before_invalid (valid : vbool) (lanes : list nat) : list nat :=
  match lanes with
  | [] => []
  | i :: lanes' =>
      if (valid !!! i : bool) then i :: lanes_before_invalid valid lanes' else []
  end.

Section packet_steps.
Variable cfg : Config.
Variable K : nat.
Variable IntersectKEpilog : vint → vint → nat → Epilog RayK.t vbool.
Variable OccludedKEpilog : vint → vint → nat → Epilog (vbool * RayK.t) vbool.

(** Triangle lane [i] of a batch tested against the packet. *)
Definition TriangleNIntersectorM_intersect_lane (valid_i : vbool) (tri : TriangleN.t)
    (i : nat) (ray : RayK.t) : RayK.t :=
  snd (moeller_trumbore_intersectK cfg K valid_i ray
         (Vec3_broadcast_lane K (TriangleN.v0 tri) i)
         (Vec3_broadcast_lane K (TriangleN.e1 tri) i)
         (Vec3_broadcast_lane K (TriangleN.e2 tri) i)
         (Vec3_broadcast_lane K (TriangleN.Ng tri) i)
         (IntersectKEpilog (TriangleN.geomIDs tri) (TriangleN.primIDs tri) i) ray).

Definition TriangleNIntersectorM_occluded_lane (tri : TriangleN.t)
    (i : nat) (st : vbool * RayK.t) : vbool * RayK.t :=
  snd (moeller_trumbore_intersectK cfg K (fst st) (snd st)
         (Vec3_broadcast_lane K (TriangleN.v0 tri) i)
         (Vec3_broadcast_lane K (TriangleN.e1 tri) i)
         (Vec3_broadcast_lane K (TriangleN.e2 tri) i)
         (Vec3_broadcast_lane K (TriangleN.Ng tri) i)
         (OccludedKEpilog (TriangleN.geomIDs tri) (TriangleN.primIDs tri) i) st).

(** The vertices of triangle lane [i] at the times of the rays. *)
Definition TriangleNMblur_vertices (tri : TriangleNMblur.t) (i : nat) (time : vfloat)
    : Vec3 vfloat * Vec3 vfloat * Vec3 vfloat :=
  (Vec3_add (Vec3_broadcast_lane K (TriangleNMblur.v0 tri) i)
     (Vec3_scale time (Vec3_broadcast_lane K (TriangleNMblur.dv0 tri) i)),
   Vec3_add (Vec3_broadcast_lane K (TriangleNMblur.v1 tri) i)
     (Vec3_scale time (Vec3_broadcast_lane K (TriangleNMblur.dv1 tri) i)),
   Vec3_add (Vec3_broadcast_lane K (TriangleNMblur.v2 tri) i)
     (Vec3_scale time (Vec3_broadcast_lane K (TriangleNMblur.dv2 tri) i))).

Definition TriangleNMblurIntersectorM_intersect_lane (valid_i : vbool)
    (tri : TriangleNMblur.t) (i : nat) (ray : RayK.t) : RayK.t :=
  let '(v0, v1, v2) := TriangleNMblur_vertices tri i (RayK.time ray) in
  snd (moeller_trumbore_intersectK_v cfg K valid_i ray v0 v1 v2
         (IntersectKEpilog (TriangleNMblur.geomIDs tri) (TriangleNMblur.primIDs tri) i)
         ray).

Definition TriangleNMblurIntersectorM_occluded_lane (tri : TriangleNMblur.t)
    (i : nat) (st : vbool * RayK.t) : vbool * RayK.t :=
  let '(v0, v1, v2) := TriangleNMblur_vertices tri i (RayK.time (snd st)) in
  snd (moeller_trumbore_intersectK_v cfg K (fst st) (snd st) v0 v1 v2
         (OccludedKEpilog (TriangleNMblur.geomIDs tri) (TriangleNMblur.primIDs tri) i)
         st).

End packet_steps.

(** The lanes [lanes] tested in order, stopping once no ray is left
    unoccluded ([if (none(valid0)) break]). *)
Fixpoint occluded_lanes (step : nat → vbool * RayK.t → vbool * RayK.t)
    (lanes : list nat) (st : vbool * RayK.t) : vbool * RayK.t :=
  match lanes with
  | [] => st
  | i :: lanes' =>
      let st := step i st in
      if none (fst st) then st else occluded_lanes step lanes' st
  end.

(** A property of the packet that every call of a filter keeps. *)
Definition filter_keeps (P : RayK.t → Prop) (filter : Filter) : Prop :=
  ∀ geometry ray k u v t Ng geomID primID,
    P ray → P (snd (filter geometry ray k u v t Ng geomID primID)).

(** ** Motion blur: base and displaced triangles *)

(** All three components of a vector have [M] lanes. *)
Definition Vec3_width (M : nat) (a : Vec3 vfloat) : Prop :=
  length (vx a) = M ∧ length (vy a) = M ∧ length (vz a) = M.

(** A motion-blur batch of [M] lanes. *)
Definition TriangleNMblur_width (M : nat) (tri : TriangleNMblur.t) : Prop :=
  Vec3_width M (TriangleNMblur.v0 tri) ∧ Vec3_width M (TriangleNMblur.v1 tri) ∧
  Vec3_width M (TriangleNMblur.v2 tri) ∧ Vec3_width M (TriangleNMblur.dv0 tri) ∧
  Vec3_width M (TriangleNMblur.dv1 tri) ∧ Vec3_width M (TriangleNMblur.dv2 tri).

(** The static batch with the vertices [v0], [v1], [v2]: its edges and
    normal as the vertex overloads derive them. *)
Definition TriangleN_of_vertices (v0 v1 v2 : Vec3 vfloat) (geomIDs primIDs : vint)
    (valid : vbool) : TriangleN.t :=
  TriangleN.mk v0 (Vec3_sub v0 v1) (Vec3_sub v2 v0)
    (cross (Vec3_sub v0 v1) (Vec3_sub v2 v0)) geomIDs primIDs valid.

(** The base triangles of a motion-blur batch, and the fully displaced ones. *)
Definition TriangleNMblur_base (tri : TriangleNMblur.t) : TriangleN.t :=
  TriangleN_of_vertices (TriangleNMblur.v0 tri) (TriangleNMblur.v1 tri)
    (TriangleNMblur.v2 tri) (TriangleNMblur.geomIDs tri) (TriangleNMblur.primIDs tri)
    (TriangleNMblur.valid tri).

Definition TriangleNMblur_displaced (tri : TriangleNMblur.t) : TriangleN.t :=
  TriangleN_of_vertices
    (Vec3_add (TriangleNMblur.v0 tri) (TriangleNMblur.dv0 tri))
    (Vec3_add (TriangleNMblur.v1 tri) (TriangleNMblur.dv1 tri))
    (Vec3_add (TriangleNMblur.v2 tri) (TriangleNMblur.dv2 tri))
    (TriangleNMblur.geomIDs tri) (TriangleNMblur.primIDs tri)
    (TriangleNMblur.valid tri).

(** ** Triangle pairs *)

(** Modelled from the spec: the batch type of triangle pairs is not in the
    source; by the data model [e1 = v0 - v1] and [e2 = v2 - v0] are the
    precomputed edge vectors of a triangle with first vertex [v0], and its
    normal is [Ng = e1 x e2].  This is the single-triangle batch made of
    those fields, the first triangle of each pair. *)
Definition TrianglePairsN_first (tri : TrianglePairsN.t) : TriangleN.t :=
  TriangleN.mk (TrianglePairsN.v0 tri) (TrianglePairsN.e1 tri) (TrianglePairsN.e2 tri)
    (cross (TrianglePairsN.e1 tri) (TrianglePairsN.e2 tri))
    (TrianglePairsN.geomIDs tri) (TrianglePairsN.primIDs tri)
    (replicate (length (TrianglePairsN.geomIDs tri)) true).

(** ** Collaborators that answer alike *)

(** Two filters that answer every call alike. *)
Definition Filter_agree (f1 f2 : Filter) : Prop :=
  ∀ geometry ray k u v t Ng geomID primID,
    f1 geometry ray k u v t Ng geomID primID = f2 geometry ray k u v t Ng geomID primID.

(** Two epilogs that answer every call alike. *)
Definition Epilog_agree {St R} (e1 e2 : Epilog St R) : Prop :=
  ∀ valid hit st, e1 valid hit st = e2 valid hit st.

(** A filter that never changes the packet it is handed. *)
Definition Filter_pure (filter : Filter) : Prop :=
  ∀ geometry ray k u v t Ng geomID primID,
    snd (filter geometry ray k u v t Ng geomID primID) = ray.

(** ** Reference epilogs and sample scenes *)

#[global] Instance Vec3_eq_dec {A} `{EqDecision A} : EqDecision (Vec3 A).
Proof. solve_decision. Defined.
#[global] Instance Ray_eq_dec : EqDecision Ray.t.
Proof. solve_decision. Defined.
#[global] Instance RayK_eq_dec : EqDecision RayK.t.
Proof. solve_decision. Defined.
#[global] Instance loop_exit_eq_dec : EqDecision loop_exit.
Proof. solve_decision. Defined.

(** [vfloat<K>::store(valid,&dst,src)]: the lanes of [src] whose mask bit is
    set replace those of [dst]. *)
Fixpoint store {A} (valid : vbool) (dst src : list A) : list A :=
  match valid, dst, src with
  | b :: valid', d :: dst', s :: src' => (if b then s else d) :: store valid' dst' src'
  | _, _, _ => dst
  end.

(** Modelled from the spec: the epilogs live in [intersector_epilog.h], which
    is not part of the source.  These are the epilogs of a build without
    intersection filter and ray mask: "if no filter/mask logic is compiled
    in, accept the first selection unconditionally", "on acceptance commits
    the hit into the ray record", and for occlusion "a boolean with no other
    observable effect". *)
Definition Intersect1Epilog_ref (geomIDs primIDs : vint) : Epilog Ray.t bool :=
  λ valid hit ray,
    let '(u, v, t, Ng) := hit () in
    let i := select_min valid t in
    (true,
     Ray.mk (Ray.org ray) (Ray.dir ray) (Ray.tnear ray) (t !!! i) (Ray.time ray)
       (Ray.mask ray) (u !!! i) (v !!! i) (Vec3_lane Ng i)
       (geomIDs !!! i) (primIDs !!! i)).

Definition Occluded1Epilog_ref (geomIDs primIDs : vint) : Epilog Ray.t bool :=
  λ valid hit ray, (true, ray).

Definition IntersectKEpilog_ref (geomIDs primIDs : vint) (i : nat)
    : Epilog RayK.t vbool :=
  λ valid hit ray,
    let '(u, v, t, Ng) := hit () in
    let K := length valid in
    (valid,
     RayK.mk (RayK.org ray) (RayK.dir ray) (RayK.tnear ray)
       (store valid (RayK.tfar ray) t) (RayK.time ray) (RayK.mask ray)
       (store valid (RayK.u ray) u) (store valid (RayK.v ray) v)
       (mkVec3 (store valid (vx (RayK.Ng ray)) (vx Ng))
               (store valid (vy (RayK.Ng ray)) (vy Ng))
               (store valid (vz (RayK.Ng ray)) (vz Ng)))
       (store valid (RayK.geomID ray) (replicate K (geomIDs !!! i)))
       (store valid (RayK.primID ray) (replicate K (primIDs !!! i)))).

Definition OccludedKEpilog_ref (geomIDs primIDs : vint) (i : nat)
    : Epilog (vbool * RayK.t) vbool :=
  λ valid hit st, (valid, ((fst st && vnot valid)%simd, snd st)).

(** A filter that leaves every candidate to the kernel: it is never
    consulted when no geometry carries one. *)
Definition no_filter : Filter := λ _ ray _ _ _ _ _ _ _, (true, ray).

(** Sample data.  Every triangle of a batch is the triangle with the corners
    [(0,0,z)], [(1,0,z)], [(0,1,z)] in the plane of height [z], so that
    [e1 = (-1,0,0)], [e2 = (0,1,0)] and [Ng = (0,0,-1)]; the sample rays
    start at [(1/4,1/4,0)] and point up, and meet the plane at [t = z]. *)
Module Sample.

Definition q (n : Z) (d : positive) : Qc := Q2Qc (n # d).

Definition cfg : Config := mkConfig false false false.
Definition cfg_cull : Config := mkConfig true false false.
Definition cfg_filter : Config := mkConfig false true true.

Definition lanes (M : nat) (a : Vec3 Qc) : Vec3 vfloat := Vec3_broadcast M a.

Definition batch (zs : vfloat) : TriangleN.t :=
  let M := length zs in
  TriangleN.mk
    (mkVec3 (replicate M 0%Qc) (replicate M 0%Qc) zs)
    (lanes M (mkVec3 (q (-1) 1) 0%Qc 0%Qc))
    (lanes M (mkVec3 0%Qc (q 1 1) 0%Qc))
    (lanes M (mkVec3 0%Qc 0%Qc (q (-1) 1)))
    (Z.of_nat <$> seq 0 M) (Z.of_nat <$> seq 10 M) (replicate M true).

Definition ray (dz tfar : Qc) : Ray.t :=
  Ray.mk (mkVec3 (q 1 4) (q 1 4) 0%Qc) (mkVec3 0%Qc 0%Qc dz) 0%Qc tfar 0%Qc (-1)%Z
    0%Qc 0%Qc (mkVec3 0%Qc 0%Qc 0%Qc) (-1)%Z (-1)%Z.

(** A packet of one ray. *)
Definition rayK (dz tfar : Qc) : RayK.t :=
  RayK.mk (mkVec3 [q 1 4] [q 1 4] [0%Qc]) (mkVec3 [0%Qc] [0%Qc] [dz]) [0%Qc] [tfar]
    [0%Qc] [(-1)%Z] [0%Qc] [0%Qc] (mkVec3 [0%Qc] [0%Qc] [0%Qc]) [(-1)%Z] [(-1)%Z].

(** Every geometry has mask [-1] (all bits) and both filters. *)
Definition scene : Scene := λ _, Geometry.mk (-1)%Z true true.

(** A filter wrapper that accepts exactly the candidates of primitive
    [prim]: on acceptance the candidate is in the ray record, on rejection
    the record is as before. *)
Definition accept_prim (prim : Z) : Filter :=
  λ _ ray k u v t Ng geomID primID,
    if bool_decide (primID = prim)
    then (true, update_hit ray k u v t Ng geomID primID)
    else (false, ray).

(** Three triangles at [t = 2, 1, 3] in the lanes 0, 1, 2, with the
    primitive ids 10, 11, 12. *)
Definition batch3 : TriangleN.t := batch [q 2 1; q 1 1; q 3 1].
Definition ray9 : RayK.t := rayK (q 1 1) (q 9 1).

Definition with_valid (tri : TriangleN.t) (valid : vbool) : TriangleN.t :=
  TriangleN.mk (TriangleN.v0 tri) (TriangleN.e1 tri) (TriangleN.e2 tri)
    (TriangleN.Ng tri) (TriangleN.geomIDs tri) (TriangleN.primIDs tri) valid.

(** Two triangles at [t = 5, 1]; lane 0 is marked invalid. *)
Definition batch_gap : TriangleN.t :=
  with_valid (batch [q 5 1; q 1 1]) [false; true].

(** A ray along the x axis, parallel to the sample triangles. *)
Definition ray_parallel : Ray.t :=
  Ray.mk (mkVec3 0%Qc (q 1 4) (q 1 1)) (mkVec3 (q 1 1) 0%Qc 0%Qc) 0%Qc (q 9 1) 0%Qc (-1)%Z
    0%Qc 0%Qc (mkVec3 0%Qc 0%Qc 0%Qc) (-1)%Z (-1)%Z.

(** One moving triangle: the base triangle of the sample batches in the
    plane [z = 1], every vertex moving up by one per unit of time. *)
Definition batch_mblur : TriangleNMblur.t :=
  TriangleNMblur.mk
    (lanes 1 (mkVec3 0%Qc 0%Qc (q 1 1))) (lanes 1 (mkVec3 (q 1 1) 0%Qc (q 1 1)))
    (lanes 1 (mkVec3 0%Qc (q 1 1) (q 1 1)))
    (lanes 1 (mkVec3 0%Qc 0%Qc (q 1 1))) (lanes 1 (mkVec3 0%Qc 0%Qc (q 1 1)))
    (lanes 1 (mkVec3 0%Qc 0%Qc (q 1 1)))
    [0%Z] [10%Z] [true].

(** A pair batch whose [v0], [e1], [e2] are those of the sample triangle
    in the plane [z = 1]. *)
Definition pairs : TrianglePairsN.t :=
  TrianglePairsN.mk (TriangleN.v0 (batch [q 1 1])) (TriangleN.e1 (batch [q 1 1]))
    (TriangleN.e2 (batch [q 1 1])) [0%Z] [10%Z].

End Sample.

#[global] Instance facing_dec cfg den : Decision (facing cfg den).
Proof. unfold facing. destruct (RTCORE_BACKFACE_CULLING cfg); apply _. Defined.
#[global] Instance inside_dec absDen U V : Decision (inside absDen U V).
Proof. unfold inside. apply _. Defined.

(** Closed facts about the sample data are settled by evaluation. *)
Ltac decide_by_computation := apply (bool_decide_unpack _); vm_compute; exact I.

(** * Lane calculus *)

Section lanes.
Implicit Types (a b : vfloat) (s p q : vbool) (i M : nat) (x y : Qc).

Lemma length_broadcast M x : length (broadcast M x) = M.
Proof. apply length_replicate. Qed.

Lemma length_vadd a b : length (a + b)%simd = length a `min` length b.
Proof. apply length_zip_with. Qed.

Lemma length_vsub a b : length (a - b)%simd = length a `min` length b.
Proof. apply length_zip_with. Qed.

Lemma length_vmul a b : length (a * b)%simd = length a `min` length b.
Proof. apply length_zip_with. Qed.

Lemma length_vxor a s : length (a ^ s)%simd = length a `min` length s.
Proof. apply length_zip_with. Qed.

Lemma length_abs a : length (abs a) = length a.
Proof. apply length_fmap. Qed.

Lemma length_rcp a : length (rcp a) = length a.
Proof. apply length_fmap. Qed.

Lemma length_signmsk a : length (signmsk a) = length a.
Proof. apply length_fmap. Qed.

Lemma length_vand p q : length (p && q)%simd = length p `min` length q.
Proof. apply length_zip_with. Qed.

Lemma length_vgt a b : length (a > b)%simd = length a `min` length b.
Proof. apply length_zip_with. Qed.

Lemma length_vlt a b : length (a < b)%simd = length a `min` length b.
Proof. apply length_zip_with. Qed.

Lemma length_vge a b : length (a >= b)%simd = length a `min` length b.
Proof. apply length_zip_with. Qed.

Lemma length_vle a b : length (a <= b)%simd = length a `min` length b.
Proof. apply length_zip_with. Qed.

Lemma length_vne a b : length (a != b)%simd = length a `min` length b.
Proof. apply length_zip_with. Qed.

Lemma lookup_total_broadcast M x i : i < M → broadcast M x !!! i = x.
Proof. apply lookup_total_replicate_2. Qed.

Lemma lookup_total_vadd a b i :
  i < length a → i < length b → (a + b)%simd !!! i = (a !!! i + b !!! i)%Qc.
Proof. apply lookup_total_zip_with. Qed.

Lemma lookup_total_vsub a b i :
  i < length a → i < length b → (a - b)%simd !!! i = (a !!! i - b !!! i)%Qc.
Proof. apply lookup_total_zip_with. Qed.

Lemma lookup_total_vmul a b i :
  i < length a → i < length b → (a * b)%simd !!! i = (a !!! i * b !!! i)%Qc.
Proof. apply lookup_total_zip_with. Qed.

Lemma lookup_total_abs a i : i < length a → abs a !!! i = Qcabs (a !!! i).
Proof. apply list_lookup_total_fmap. Qed.

Lemma lookup_total_rcp a i : i < length a → rcp a !!! i = (/ (a !!! i))%Qc.
Proof. apply list_lookup_total_fmap. Qed.

Lemma lookup_total_vxor_signmsk a d i :
  i < length a → i < length d →
  (a ^ signmsk d)%simd !!! i = if bool_decide (d !!! i < 0)%Qc then (- a !!! i)%Qc else a !!! i.
Proof.
  intros Ha Hd. unfold vxor, signmsk.
  etrans; [apply lookup_total_zip_with; rewrite ?length_fmap; lia|].
  assert (((λ d : Qc, bool_decide (d < 0)%Qc) <$> d) !!! i
          = bool_decide (d !!! i < 0)%Qc) as ->
    by exact (list_lookup_total_fmap (λ d : Qc, bool_decide (d < 0)%Qc) d i Hd).
  done.
Qed.

(** A lane of a mask is set exactly when the comparison holds on it. *)
Lemma vand_lane p q i :
  (p && q)%simd !! i = Some true ↔ p !! i = Some true ∧ q !! i = Some true.
Proof.
  unfold vand. rewrite lookup_zip_with_Some. split.
  - intros (b1 & b2 & Hb & H1 & H2). symmetry in Hb.
    apply andb_true_iff in Hb as [-> ->]. done.
  - intros [H1 H2]. by exists true, true.
Qed.

Lemma vcmp_lane (R : Qc → Qc → Prop) `{!RelDecision R} a b i :
  zip_with (λ x y, bool_decide (R x y)) a b !! i = Some true ↔
  i < length a ∧ i < length b ∧ R (a !!! i) (b !!! i).
Proof.
  rewrite lookup_zip_with_Some. split.
  - intros (x & y & Hb & Hx & Hy). symmetry in Hb. apply bool_decide_eq_true in Hb.
    rewrite (list_lookup_total_correct _ _ _ Hx), (list_lookup_total_correct _ _ _ Hy).
    eauto using lookup_lt_Some.
  - intros (Ha & Hb & HR). exists (a !!! i), (b !!! i).
    rewrite bool_decide_eq_true_2 by done.
    split_and!; [done | by apply list_lookup_lookup_total_lt ..].
Qed.

Lemma vgt_lane a b i :
  (a > b)%simd !! i = Some true ↔ i < length a ∧ i < length b ∧ (b !!! i < a !!! i)%Qc.
Proof. apply (vcmp_lane (λ x y, y < x)%Qc). Qed.

Lemma vlt_lane a b i :
  (a < b)%simd !! i = Some true ↔ i < length a ∧ i < length b ∧ (a !!! i < b !!! i)%Qc.
Proof. apply (vcmp_lane (λ x y, x < y)%Qc). Qed.

Lemma vge_lane a b i :
  (a >= b)%simd !! i = Some true ↔ i < length a ∧ i < length b ∧ (b !!! i ≤ a !!! i)%Qc.
Proof. apply (vcmp_lane (λ x y, y ≤ x)%Qc). Qed.

Lemma vle_lane a b i :
  (a <= b)%simd !! i = Some true ↔ i < length a ∧ i < length b ∧ (a !!! i ≤ b !!! i)%Qc.
Proof. apply (vcmp_lane (λ x y, x ≤ y)%Qc). Qed.

Lemma vne_lane a b i :
  (a != b)%simd !! i = Some true ↔ i < length a ∧ i < length b ∧ a !!! i ≠ b !!! i.
Proof. apply (vcmp_lane (λ x y, x ≠ y)). Qed.

(** [none] holds when no lane is set. *)
Lemma none_true p : none p = true ↔ ∀ i, p !! i ≠ Some true.
Proof.
  unfold none. induction p as [|b p IH]; simpl.
  - split; [by intros _ i | done].
  - rewrite andb_true_iff, IH. split.
    + intros [Hb H] [|i]; simpl; [by destruct b | apply H].
    + intros H. split; [destruct b; [by destruct (H 0)|done] |].
      intros i. apply (H (S i)).
Qed.

Lemma none_false p : none p = false ↔ ∃ i, p !! i = Some true.
Proof.
  rewrite <-not_true_iff_false, none_true. split.
  - intros H. induction p as [|b p IH].
    + destruct H. by intros [|?].
    + destruct b; [by exists 0|].
      destruct IH as [i Hi]; [|by exists (S i)].
      intros Hp. apply H. intros [|i]; [done|apply Hp].
  - intros [i Hi] H. by apply (H i).
Qed.

Lemma none_vand_l p q : none p = true → none (p && q)%simd = true.
Proof. rewrite !none_true. intros H i Hi. apply vand_lane in Hi as [? _]. by apply (H i). Qed.

End lanes.

Create Rewrite HintDb vlen.
#[global] Hint Rewrite length_broadcast length_vadd length_vsub length_vmul
  length_vxor length_abs length_rcp length_signmsk length_vand length_vgt
  length_vlt length_vge length_vle length_vne : vlen.

(** * The kernels in terms of their masks *)

(** An early exit on an intermediate mask is subsumed by the exit on the
    mask it is narrowed to. *)
Lemma if_none_vand {A} (p q : vbool) (x y : A) :
  (if none p then x else if none (p && q)%simd then x else y)
  = (if none (p && q)%simd then x else y).
Proof. destruct (none p) eqn:Hp; [by rewrite none_vand_l | done]. Qed.

Lemma moeller_trumbore_intersect1_unfold cfg M ray v0 e1 e2 Ng epilog :
  let O := Vec3_broadcast M (Ray.org ray) in
  let D := Vec3_broadcast M (Ray.dir ray) in
  let valid := mask_intersect cfg O D v0 e1 e2 Ng M (Ray.tnear ray) (Ray.tfar ray) in
  moeller_trumbore_intersect1 cfg M ray v0 e1 e2 Ng epilog =
    if none valid then (false, ray) else epilog valid (mt_hit O D v0 e1 e2 Ng) ray.
Proof.
  intros O D valid. unfold moeller_trumbore_intersect1. cbv zeta.
  rewrite if_none_vand. reflexivity.
Qed.

Lemma moeller_trumbore_intersectK_unfold {St} cfg K valid0 ray v0 e1 e2 Ng
    (epilog : Epilog St vbool) st :
  let valid := mask_intersectK cfg (RayK.org ray) (RayK.dir ray) v0 e1 e2 Ng K valid0
                 (RayK.tnear ray) (RayK.tfar ray) in
  moeller_trumbore_intersectK cfg K valid0 ray v0 e1 e2 Ng epilog st =
    if none valid then (broadcast_false K, st)
    else epilog valid (mt_hit (RayK.org ray) (RayK.dir ray) v0 e1 e2 Ng) st.
Proof.
  intros valid. subst valid. unfold moeller_trumbore_intersectK, mask_intersectK.
  cbv zeta. destruct (RTCORE_BACKFACE_CULLING cfg); rewrite !if_none_vand; reflexivity.
Qed.

(** * The masks, lane by lane *)

Ltac len_solve :=
  autorewrite with vlen; rewrite ?Nat.min_glb_lt_iff; split_and?; assumption.

Ltac lane_rw :=
  repeat first
    [ rewrite lookup_total_broadcast in * by len_solve
    | rewrite lookup_total_vadd in * by len_solve
    | rewrite lookup_total_vsub in * by len_solve
    | rewrite lookup_total_vmul in * by len_solve
    | rewrite lookup_total_abs in * by len_solve ].

Ltac lane_solve :=
  autorewrite with vlen; rewrite ?Nat.min_glb_lt_iff;
  split; intros ?; destruct_and!;
  try match goal with H : _ !! _ = Some true |- _ =>
      pose proof (lookup_lt_Some _ _ _ H) end;
  lane_rw; split_and!; assumption.

Lemma Qcminus_nonneg (a b : Qc) : (0 ≤ a - b)%Qc ↔ (b ≤ a)%Qc.
Proof.
  rewrite (Qcplus_le_mono_r 0 (a - b) b).
  replace (a - b + b)%Qc with a by ring. by rewrite Qcplus_0_l.
Qed.

Section mask_lanes.
Variable cfg : Config.
Variables (O D v0 e1 e2 Ng : Vec3 vfloat).
Variable i : nat.

Let den := mt_den D Ng !!! i.
Let U := mt_U O D v0 e2 Ng !!! i.
Let V := mt_V O D v0 e1 Ng !!! i.
Let T := mt_T O D v0 Ng !!! i.

(** A lane survives the intersect mask exactly when it faces the ray,
    passes the edge tests and has [T] strictly between the scaled bounds. *)
Lemma mask_intersect_lane M tnear tfar :
  mask_intersect cfg O D v0 e1 e2 Ng M tnear tfar !! i = Some true ↔
    i < length (mask_intersect cfg O D v0 e1 e2 Ng M tnear tfar) ∧
    facing cfg den ∧ inside (Qcabs den) U V ∧
    (Qcabs den * tnear < T)%Qc ∧ (T < Qcabs den * tfar)%Qc.
Proof.
  subst den U V T.
  unfold mask_intersect, facing, inside, mt_absDen. cbv zeta.
  destruct (RTCORE_BACKFACE_CULLING cfg);
    rewrite !vand_lane, ?vgt_lane, ?vne_lane, !vge_lane, vle_lane, vlt_lane;
    lane_solve.
Qed.

(** The occluded mask admits [T] on the bounds. *)
Lemma mask_occluded_k_lane M tnear tfar :
  mask_occluded_k cfg O D v0 e1 e2 Ng M tnear tfar !! i = Some true ↔
    i < length (mask_occluded_k cfg O D v0 e1 e2 Ng M tnear tfar) ∧
    facing cfg den ∧ inside (Qcabs den) U V ∧
    (Qcabs den * tnear ≤ T)%Qc ∧ (T ≤ Qcabs den * tfar)%Qc.
Proof.
  subst den U V T.
  unfold mask_occluded_k, facing, inside, mt_absDen. cbv zeta.
  rewrite <-(Qcminus_nonneg (Qcabs _) (_ + _)).
  replace (Qcabs (mt_den D Ng !!! i) - (mt_U O D v0 e2 Ng !!! i + mt_V O D v0 e1 Ng !!! i))%Qc
    with (Qcabs (mt_den D Ng !!! i) - mt_U O D v0 e2 Ng !!! i - mt_V O D v0 e1 Ng !!! i)%Qc
    by ring.
  destruct (RTCORE_BACKFACE_CULLING cfg);
    rewrite !vand_lane, ?vgt_lane, ?vne_lane, !vge_lane;
    lane_solve.
Qed.

(** So does the packet mask, lane by lane of the rays. *)
Lemma mask_intersectK_lane K valid0 (tnear tfar : vfloat) :
  mask_intersectK cfg O D v0 e1 e2 Ng K valid0 tnear tfar !! i = Some true ↔
    i < length (mask_intersectK cfg O D v0 e1 e2 Ng K valid0 tnear tfar) ∧
    valid0 !! i = Some true ∧
    facing cfg den ∧ inside (Qcabs den) U V ∧
    (Qcabs den * (tnear !!! i) ≤ T)%Qc ∧ (T ≤ Qcabs den * (tfar !!! i))%Qc.
Proof.
  subst den U V T.
  unfold mask_intersectK, facing, inside, mt_absDen. cbv zeta.
  rewrite <-(Qcminus_nonneg (Qcabs _) (_ + _)).
  replace (Qcabs (mt_den D Ng !!! i) - (mt_U O D v0 e2 Ng !!! i + mt_V O D v0 e1 Ng !!! i))%Qc
    with (Qcabs (mt_den D Ng !!! i) - mt_U O D v0 e2 Ng !!! i - mt_V O D v0 e1 Ng !!! i)%Qc
    by ring.
  destruct (RTCORE_BACKFACE_CULLING cfg);
    rewrite !vand_lane, ?vgt_lane, ?vne_lane, !vge_lane;
    lane_solve.
Qed.

End mask_lanes.

(** * Lane selection *)

Lemma select_min_opt_None (valid : list bool) (t : list Qc) :
  select_min_opt valid t = None →
  ∀ j x, valid !! j = Some true → t !! j = Some x → False.
Proof.
  revert t. induction valid as [|b valid IH]; intros [|x0 t] Hr j x Hj Hx; try done.
  simpl in Hr. destruct b.
  - destruct (select_min_opt valid t) as [[j' m]|]; [case_bool_decide|]; done.
  - destruct (select_min_opt valid t) as [[j' m]|] eqn:Hopt; [done|].
    destruct j as [|j]; [done|]. by eapply (IH t).
Qed.

Lemma select_min_opt_Some (valid : list bool) (t : list Qc) i m :
  select_min_opt valid t = Some (i, m) →
  valid !! i = Some true ∧ t !! i = Some m ∧
  ∀ j x, valid !! j = Some true → t !! j = Some x →
    (m < x)%Qc ∨ (m = x ∧ i ≤ j).
Proof.
  revert t i m. induction valid as [|b valid IH]; intros [|x0 t] i m Hr; try done.
  simpl in Hr.
  destruct (select_min_opt valid t) as [[j' m']|] eqn:Hopt.
  - destruct (IH _ _ _ Hopt) as (Hv & Ht & Hmin).
    destruct b; [case_bool_decide as Hlt|]; simplify_eq; (split_and!; [done..|]).
    + intros [|j] x Hj Hx; simplify_eq/=; [by left|].
      destruct (Hmin _ _ Hj Hx) as [?|[-> ?]]; [by left|right; split; [done|lia]].
    + apply Qcnot_lt_le in Hlt.
      intros [|j] x Hj Hx; simplify_eq/=; [by right|].
      assert (m ≤ x)%Qc as Hle.
      { destruct (Hmin _ _ Hj Hx) as [?|[-> ?]].
        - eapply Qcle_trans; [done|]. by apply Qclt_le_weak.
        - done. }
      destruct (Qcle_lt_or_eq _ _ Hle) as [?| ->]; [by left|right; split; [done|lia]].
    + intros [|j] x Hj Hx; simplify_eq/=.
      destruct (Hmin _ _ Hj Hx) as [?|[-> ?]]; [by left|right; split; [done|lia]].
  - destruct b; [|done]. simplify_eq. split_and!; [done..|].
    intros [|j] x Hj Hx; simplify_eq/=; [by right|].
    by destruct (select_min_opt_None _ _ Hopt _ _ Hj Hx).
Qed.

Lemma select_min_spec (valid : list bool) (t : list Qc) :
  none valid = false → length valid ≤ length t →
  valid !! select_min valid t = Some true ∧
  ∀ j, valid !! j = Some true → selected_first t (select_min valid t) j.
Proof.
  intros Hnone Hlen. unfold select_min.
  apply none_false in Hnone as [j0 Hj0].
  assert (∀ j, valid !! j = Some true → t !! j = Some (t !!! j)) as Ht.
  { intros j Hj. apply list_lookup_lookup_total_lt.
    apply lookup_lt_Some in Hj. lia. }
  destruct (select_min_opt valid t) as [[i m]|] eqn:Hopt.
  - destruct (select_min_opt_Some _ _ _ _ Hopt) as (Hv & Hi & Hmin).
    split; [done|]. intros j Hj. unfold selected_first.
    rewrite (list_lookup_total_correct _ _ _ Hi). by apply Hmin, Ht.
  - by destruct (select_min_opt_None _ _ Hopt _ _ Hj0 (Ht _ Hj0)).
Qed.

(** * Lane bit masks *)

Lemma bit_movemask (valid : list bool) i :
  bit (movemask valid) i = true ↔ valid !! i = Some true.
Proof.
  unfold bit. revert i. induction valid as [|b valid IH]; intros i; simpl.
  - split; [done|]. by rewrite lookup_nil.
  - destruct i as [|i].
    + rewrite N.add_b2n_double_bit0. simpl. split; congruence.
    + rewrite Nat2N.inj_succ, N.add_comm, N.testbit_succ_r. apply IH.
Qed.

Lemma bit_bsf m : m ≠ 0%N → bit m (__bsf m) = true.
Proof.
  unfold bit. destruct m as [|p]; [done|intros _]. simpl.
  induction p as [p IH|p IH|]; [done| |done].
  cbn [Pos_ctz]. rewrite Nat2N.inj_succ.
  exact (eq_trans (N.double_bits_succ (N.pos p) _) IH).
Qed.

Lemma bit_btc m i j : bit (__btc m i) j = xorb (bit m j) (bool_decide (i = j)).
Proof.
  unfold bit, __btc. rewrite N.lxor_spec, N.shiftl_1_l, N.pow2_bits_eqb.
  f_equal. case_bool_decide as H.
  - subst. apply N.eqb_refl.
  - apply N.eqb_neq. intros ?%Nat2N.inj. done.
Qed.

Lemma lxor_double (a b : N) : N.lxor (2 * a) (2 * b) = (2 * N.lxor a b)%N.
Proof.
  destruct a as [|p], b as [|q]; try reflexivity.
Qed.

Lemma popcnt_double (a : N) : popcnt (2 * a) = popcnt a.
Proof. by destruct a. Qed.

Lemma popcnt_btc_bsf m : m ≠ 0%N → popcnt (__btc m (__bsf m)) < popcnt m.
Proof.
  destruct m as [|p]; [done|intros _]. unfold __btc. simpl.
  induction p as [p IH|p IH|].
  - simpl. lia.
  - cbn [Pos_ctz Pos_popcnt]. rewrite Nat2N.inj_succ, N.shiftl_1_l, N.pow_succ_r'.
    rewrite (lxor_double (N.pos p)), popcnt_double, <-N.shiftl_1_l. apply IH.
  - simpl. lia.
Qed.

Lemma popcnt_movemask (valid : list bool) : popcnt (movemask valid) ≤ length valid.
Proof.
  induction valid as [|b valid IH]; simpl; [done|].
  destruct b, (movemask valid) as [|p]; simpl in *; rewrite ?Pos.mul_1_l; lia.
Qed.

Lemma movemask_0 (valid : list bool) : movemask valid = 0%N ↔ none valid = true.
Proof.
  unfold none. induction valid as [|b valid IH]; simpl; [done|].
  rewrite andb_true_iff, <-IH.
  destruct b, (movemask valid) as [|p]; simpl;
    (split; [intros ?|intros [? ?]]; simplify_eq; done).
Qed.


(** * The loop of the per-lane intersect kernel *)

Lemma popcnt_mask_clear (valid : list bool) i :
  valid !! i = Some true →
  S (popcnt_mask (<[i := false]> valid)) = popcnt_mask valid.
Proof.
  revert i. induction valid as [|b valid IH]; intros [|i] Hi; simplify_eq/=; [done|].
  rewrite <-(IH i Hi). lia.
Qed.

Lemma clear_lane_Some (valid : list bool) i j :
  <[i := false]> valid !! j = Some true ↔ valid !! j = Some true ∧ i ≠ j.
Proof.
  rewrite list_lookup_insert_Some. split.
  - intros [(_ & ? & _)|[? ?]]; done.
  - intros [? ?]. by right.
Qed.

Lemma clear_lanes_Some (valid : list bool) p j :
  clear_lanes valid p !! j = Some true → valid !! j = Some true ∧ j ∉ p.
Proof.
  unfold clear_lanes. revert valid. induction p as [|i p IH]; intros valid; simpl.
  - intros ?. split; [done|]. by intros ?%elem_of_nil.
  - intros [[? ?]%clear_lane_Some ?]%IH. split; [done|].
    intros [?|?]%elem_of_cons; done.
Qed.

Section intersect_k_loop_facts.
Variables (cfg : Config) (enable : bool) (scene : Scene) (filter : Filter).
Variables (k : nat) (u v t : list Qc) (tri_Ng : Vec3 (list Qc)) (geomIDs primIDs : list Z).

Local Abbreviation pass_ := (intersect_k_pass cfg enable scene filter k u v t tri_Ng geomIDs primIDs).
Local Abbreviation loop fuel := (intersect_k_loop cfg enable scene filter fuel k u v t tri_Ng geomIDs primIDs).

Lemma intersect_k_pass_Break ray i j ray' :
  pass_ ray i = Leave (Break j ray') → j = i ∧ ray' = ray.
Proof.
  unfold intersect_k_pass. cbv zeta.
  repeat case_match; intros; simplify_eq; done.
Qed.

Lemma intersect_k_loop_total fuel ray valid i :
  valid !! i = Some true → popcnt_mask valid ≤ fuel → length valid ≤ length t →
  is_Some (loop fuel ray valid i).
Proof.
  revert ray valid i. induction fuel as [|fuel IH]; intros ray valid i Hi Hfuel Hlen.
  { apply popcnt_mask_clear in Hi. lia. }
  simpl. destruct (pass_ ray i) as [e|ray']; [done|].
  destruct (none (<[i:=false]> valid)) eqn:Hnone; [done|].
  destruct (select_min_spec _ t Hnone) as [Hsel _]; [by rewrite length_insert|].
  destruct (IH ray' _ _ Hsel) as [[sel e] ->]; [|by rewrite length_insert|done].
  apply popcnt_mask_clear in Hi. lia.
Qed.

Lemma intersect_k_loop_log fuel ray valid i sel e :
  valid !! i = Some true →
  (∀ j, valid !! j = Some true → selected_first t i j) →
  length valid ≤ length t →
  loop fuel ray valid i = Some (sel, e) →
  (∀ p j rest, sel = p ++ j :: rest →
     clear_lanes valid p !! j = Some true ∧
     ∀ j', clear_lanes valid p !! j' = Some true → selected_first t j j')
  ∧ (∀ j ray', e = Break j ray' → last sel = Some j).
Proof.
  revert ray valid i sel e.
  induction fuel as [|fuel IH]; intros ray valid i sel e Hi Hfirst Hlen Hloop; [done|].
  simpl in Hloop.
  assert (∀ p j rest, [i] = p ++ j :: rest →
     clear_lanes valid p !! j = Some true ∧
     ∀ j', clear_lanes valid p !! j' = Some true → selected_first t j j') as Hone.
  { intros [|? [|??]] j rest Heq; simplify_eq/=. done. }
  destruct (pass_ ray i) as [e'|ray'] eqn:Hpass.
  - simplify_eq. split; [done|].
    intros j ray' ->. apply intersect_k_pass_Break in Hpass as [-> _]. done.
  - destruct (none (<[i:=false]> valid)) eqn:Hnone.
    { simplify_eq. split; [done|]. done. }
    destruct (select_min_spec _ t Hnone) as [Hsel Hmin]; [by rewrite length_insert|].
    destruct (loop fuel ray' _ _) as [[sel' e']|] eqn:Hrec; [|done]. simplify_eq.
    destruct (IH _ _ _ _ _ Hsel Hmin ltac:(by rewrite length_insert) Hrec) as [Hlog Hlast].
    split.
    + intros [|i' p] j rest Heq; simplify_eq/=; [done|]. by eapply Hlog.
    + intros j ray'' ->. rewrite last_cons. by rewrite (Hlast _ _ eq_refl).
Qed.

Lemma intersect_k_loop_selects fuel ray valid i j ej :
  valid !! i = Some true →
  (∀ j', valid !! j' = Some true → selected_first t i j') →
  length valid ≤ length t →
  popcnt_mask valid ≤ fuel →
  valid !! j = Some true →
  (∀ i', valid !! i' = Some true → i' ≠ j → selected_first t i' j → pass_ ray i' = Next ray) →
  pass_ ray j = Leave ej →
  ∃ sel, loop fuel ray valid i = Some (sel, ej) ∧ last sel = Some j.
Proof.
  revert valid i.
  induction fuel as [|fuel IH]; intros valid i Hi Hfirst Hlen Hfuel Hj Hrej Hacc.
  { apply popcnt_mask_clear in Hi. lia. }
  simpl. destruct (decide (i = j)) as [->|Hne].
  { rewrite Hacc. by exists [j]. }
  rewrite (Hrej i Hi Hne (Hfirst _ Hj)).
  assert (<[i:=false]> valid !! j = Some true) as Hj' by by apply clear_lane_Some.
  destruct (none (<[i:=false]> valid)) eqn:Hnone.
  { by destruct (proj1 (none_true _) Hnone j). }
  destruct (select_min_spec _ t Hnone) as [Hsel Hmin]; [by rewrite length_insert|].
  destruct (IH _ _ Hsel Hmin) as (sel & -> & Hlast); try done.
  - by rewrite length_insert.
  - apply popcnt_mask_clear in Hi. lia.
  - intros i' [Hi' _]%clear_lane_Some. by apply Hrej.
  - exists (i :: sel). split; [done|]. rewrite last_cons. by rewrite Hlast.
Qed.

Lemma intersect_k_loop_all_rejected fuel ray valid i :
  valid !! i = Some true →
  length valid ≤ length t →
  popcnt_mask valid ≤ fuel →
  (∀ i', valid !! i' = Some true → pass_ ray i' = Next ray) →
  ∃ sel, loop fuel ray valid i = Some (sel, Return ray).
Proof.
  revert valid i.
  induction fuel as [|fuel IH]; intros valid i Hi Hlen Hfuel Hrej.
  { apply popcnt_mask_clear in Hi. lia. }
  simpl. rewrite (Hrej i Hi).
  destruct (none (<[i:=false]> valid)) eqn:Hnone; [by eexists|].
  destruct (select_min_spec _ t Hnone) as [Hsel Hmin]; [by rewrite length_insert|].
  destruct (IH _ _ Hsel) as (sel & ->); try done.
  - by rewrite length_insert.
  - apply popcnt_mask_clear in Hi. lia.
  - intros i' [Hi' _]%clear_lane_Some. by apply Hrej.
  - by eexists.
Qed.

Lemma intersect_k_loop_inv (P : RayK.t → Prop) fuel ray valid i sel e :
  (∀ r i' r', P r → pass_ r i' = Next r' → P r') →
  (∀ r i' e', P r → pass_ r i' = Leave e' → P (exit_ray e')) →
  P ray →
  loop fuel ray valid i = Some (sel, e) →
  P (exit_ray e).
Proof.
  intros Hnext Hleave. revert ray valid i sel e.
  induction fuel as [|fuel IH]; intros ray valid i sel e HP Hloop; [done|].
  simpl in Hloop. destruct (pass_ ray i) as [e'|ray'] eqn:Hpass.
  - simplify_eq. by eapply Hleave.
  - pose proof (Hnext _ _ _ HP Hpass) as HP'.
    destruct (none _); [by simplify_eq|].
    destruct (loop fuel ray' _ _) as [[sel' e']|] eqn:Hrec; [|done]. simplify_eq.
    exact (IH _ _ _ _ _ HP' Hrec).
Qed.

End intersect_k_loop_facts.

(** * The loop of the per-lane occluded kernel *)

Lemma popcnt_pos m : m ≠ 0%N → 0 < popcnt m.
Proof.
  destruct m as [|p]; [done|intros _]. simpl.
  induction p; simpl; lia.
Qed.

Section occluded_k_loop_facts.
Variables (cfg : Config) (enable : bool) (scene : Scene) (filter : Filter).
Variables (k : nat) (absDen U V T : list Qc) (tri_Ng : Vec3 (list Qc))
  (geomIDs primIDs : list Z).

Local Abbreviation pass_ :=
  (occluded_k_pass cfg enable scene filter k absDen U V T tri_Ng geomIDs primIDs).
Local Abbreviation loop fuel :=
  (occluded_k_loop cfg enable scene filter fuel k absDen U V T tri_Ng geomIDs primIDs).

Lemma bit_btc_subset m i j : bit m i = true → bit (__btc m i) j = true → bit m j = true.
Proof.
  intros Hi. rewrite bit_btc. case_bool_decide as Hij.
  - subst. rewrite Hi. done.
  - by rewrite xorb_false_r.
Qed.

Lemma occluded_k_loop_total fuel ray m :
  m ≠ 0%N → popcnt m ≤ fuel → is_Some (loop fuel ray m).
Proof.
  revert ray m. induction fuel as [|fuel IH]; intros ray m Hm Hfuel.
  { pose proof (popcnt_pos m Hm). lia. }
  simpl. destruct (pass_ ray (__bsf m)) as [r|ray']; [done|].
  destruct (N.eqb_spec (__btc m (__bsf m)) 0) as [|Hm']; [done|].
  destruct (IH ray' _ Hm') as [[sel r] ->]; [|done].
  pose proof (popcnt_btc_bsf m Hm). lia.
Qed.

Lemma occluded_k_loop_log fuel ray m sel r :
  m ≠ 0%N → loop fuel ray m = Some (sel, r) → ∀ j, j ∈ sel → bit m j = true.
Proof.
  revert ray m sel r. induction fuel as [|fuel IH]; intros ray m sel r Hm Hloop; [done|].
  simpl in Hloop. pose proof (bit_bsf m Hm) as Hi.
  destruct (pass_ ray (__bsf m)) as [r'|ray'].
  { simplify_eq. by intros j ->%list_elem_of_singleton. }
  destruct (N.eqb_spec (__btc m (__bsf m)) 0) as [|Hm'].
  { simplify_eq. by intros j ->%list_elem_of_singleton. }
  destruct (loop fuel ray' _) as [[sel' r']|] eqn:Hrec; [|done]. simplify_eq.
  intros j [->|Hj]%elem_of_cons; [done|].
  eapply bit_btc_subset; [done|]. by eapply IH.
Qed.

Lemma occluded_k_loop_inv (P : RayK.t → Prop) fuel ray m sel r :
  (∀ r0 i r', P r0 → pass_ r0 i = Next r' → P r') →
  (∀ r0 i b r', P r0 → pass_ r0 i = Leave (b, r') → P r') →
  P ray →
  loop fuel ray m = Some (sel, r) →
  P (snd r).
Proof.
  intros Hnext Hleave. revert ray m sel r.
  induction fuel as [|fuel IH]; intros ray m sel r HP Hloop; [done|].
  simpl in Hloop. destruct (pass_ ray (__bsf m)) as [[b r']|ray'] eqn:Hpass.
  - simplify_eq. by eapply Hleave.
  - pose proof (Hnext _ _ _ HP Hpass) as HP'.
    destruct (_ =? _)%N; [by simplify_eq|].
    destruct (loop fuel ray' _) as [[sel' r']|] eqn:Hrec; [|done]. simplify_eq.
    exact (IH _ _ _ _ HP' Hrec).
Qed.

(** The answer is [true] exactly when the loop was left through a pass. *)
Lemma occluded_k_loop_true fuel ray m sel ray' :
  loop fuel ray m = Some (sel, (true, ray')) →
  ∃ r0 i, i ∈ sel ∧ pass_ r0 i = Leave (true, ray').
Proof.
  revert ray m sel. induction fuel as [|fuel IH]; intros ray m sel Hloop; [done|].
  simpl in Hloop. destruct (pass_ ray (__bsf m)) as [[b r']|ray''] eqn:Hpass.
  - simplify_eq. exists ray, (__bsf m). split; [apply list_elem_of_singleton; done|done].
  - destruct (_ =? _)%N; [by simplify_eq|].
    destruct (loop fuel ray'' _) as [[sel' r']|] eqn:Hrec; [|done]. simplify_eq.
    destruct (IH _ _ _ Hrec) as (r0 & i & Hi & Hp).
    exists r0, i. split; [by apply elem_of_cons; right|done].
Qed.

End occluded_k_loop_facts.

(** * The per-lane kernels in terms of their masks *)

Lemma le_by_lanes (a b : nat) : (∀ i, i < a → i < b) → a ≤ b.
Proof. intros H. destruct (decide (a ≤ b)) as [|Hn]; [done|]. specialize (H b). lia. Qed.

Lemma length_mask_intersect_t cfg O D v0 e1 e2 Ng M tnear tfar :
  length (mask_intersect cfg O D v0 e1 e2 Ng M tnear tfar) ≤ length (mt_t O D v0 Ng).
Proof.
  apply le_by_lanes. intros i.
  unfold mask_intersect, mt_t, mt_absDen. cbv zeta.
  destruct (RTCORE_BACKFACE_CULLING cfg);
    autorewrite with vlen; rewrite !Nat.min_glb_lt_iff;
    intros ?; destruct_and!; split_and!; assumption.
Qed.

Lemma triangle_intersect_moeller_trumbore_k_log_unfold
    cfg enable M scene filter ray k v0 e1 e2 Ng geomIDs primIDs :
  let O := Vec3_broadcast_lane M (RayK.org ray) k in
  let D := Vec3_broadcast_lane M (RayK.dir ray) k in
  let valid := mask_intersect cfg O D v0 e1 e2 Ng M
                 (RayK.tnear ray !!! k) (RayK.tfar ray !!! k) in
  let u := mt_u O D v0 e2 Ng in
  let v := mt_v O D v0 e1 Ng in
  let t := mt_t O D v0 Ng in
  triangle_intersect_moeller_trumbore_k_log cfg enable M scene filter ray k
    v0 e1 e2 Ng geomIDs primIDs =
  if none valid then Some ([], ray) else
  match
    (if RTCORE_INTERSECTION_FILTER cfg || RTCORE_RAY_MASK cfg
     then intersect_k_loop cfg enable scene filter (length valid) k u v t Ng
            geomIDs primIDs ray valid (select_min valid t)
     else Some ([select_min valid t], Break (select_min valid t) ray))
  with
  | None => None
  | Some (sel, Return ray) => Some (sel, ray)
  | Some (sel, Break i ray) =>
      Some (sel, update_hit ray k (u !!! i) (v !!! i) (t !!! i) (Vec3_lane Ng i)
                   (geomIDs !!! i) (primIDs !!! i))
  end.
Proof.
  intros O D valid u v t. unfold triangle_intersect_moeller_trumbore_k_log.
  cbv zeta. rewrite if_none_vand. reflexivity.
Qed.

Lemma triangle_occluded_moeller_trumbore_k_log_unfold
    cfg enable M scene filter ray k v0 e1 e2 Ng geomIDs primIDs :
  let O := Vec3_broadcast_lane M (RayK.org ray) k in
  let D := Vec3_broadcast_lane M (RayK.dir ray) k in
  let valid := mask_occluded_k cfg O D v0 e1 e2 Ng M
                 (RayK.tnear ray !!! k) (RayK.tfar ray !!! k) in
  triangle_occluded_moeller_trumbore_k_log cfg enable M scene filter ray k
    v0 e1 e2 Ng geomIDs primIDs =
  if none valid then Some ([], (false, ray)) else
  if RTCORE_INTERSECTION_FILTER cfg || RTCORE_RAY_MASK cfg
  then occluded_k_loop cfg enable scene filter (length valid) k
         (mt_absDen D Ng) (mt_U O D v0 e2 Ng) (mt_V O D v0 e1 Ng) (mt_T O D v0 Ng)
         Ng geomIDs primIDs ray (movemask valid)
  else Some ([], (true, ray)).
Proof.
  intros O D valid. subst valid.
  unfold triangle_occluded_moeller_trumbore_k_log, mask_occluded_k.
  cbv zeta. destruct (RTCORE_BACKFACE_CULLING cfg); rewrite !if_none_vand; reflexivity.
Qed.

(** * Arithmetic of the depth test *)

Lemma facing_nonzero cfg den : facing cfg den → den ≠ 0%Qc.
Proof.
  unfold facing. destruct (RTCORE_BACKFACE_CULLING cfg); [|done].
  intros Hlt ->. by apply (Qclt_not_eq _ _ Hlt).
Qed.

Lemma Qcabs_pos_iff (den : Qc) : (0 < Qcabs den)%Qc ↔ den ≠ 0%Qc.
Proof.
  split.
  - intros Hlt ->. by apply (Qclt_not_eq _ _ Hlt).
  - intros Hne. destruct (Qcle_lt_or_eq _ _ (Qcabs_nonneg den)) as [?|Heq]; [done|].
    symmetry in Heq. by apply Qcabs_null in Heq.
Qed.

Lemma facing_abs_pos cfg den : facing cfg den → (0 < Qcabs den)%Qc.
Proof. intros ?%facing_nonzero. by apply Qcabs_pos_iff. Qed.

Lemma Qc_lt_div_r (d a T : Qc) : (0 < d)%Qc → (d * a < T)%Qc → (a < T * / d)%Qc.
Proof.
  intros Hd H. apply (Qcmult_lt_compat_r _ _ (/ d)) in H; [|by apply Qcinv_pos].
  replace (d * a * / d)%Qc with a in H; [done|].
  field. intros ->. by apply (Qclt_not_eq _ _ Hd).
Qed.

Lemma Qc_div_lt_l (d b T : Qc) : (0 < d)%Qc → (T < d * b)%Qc → (T * / d < b)%Qc.
Proof.
  intros Hd H. apply (Qcmult_lt_compat_r _ _ (/ d)) in H; [|by apply Qcinv_pos].
  replace (d * b * / d)%Qc with b in H; [done|].
  field. intros ->. by apply (Qclt_not_eq _ _ Hd).
Qed.

(** The lane [t] of a surviving lane of the intersect mask. *)
Lemma mask_intersect_lane_t cfg O D v0 e1 e2 Ng M tnear tfar i :
  mask_intersect cfg O D v0 e1 e2 Ng M tnear tfar !! i = Some true →
  mt_t O D v0 Ng !!! i = (mt_T O D v0 Ng !!! i * / Qcabs (mt_den D Ng !!! i))%Qc.
Proof.
  intros Hi%lookup_lt_Some. revert Hi.
  unfold mask_intersect, mt_t, mt_absDen. cbv zeta.
  destruct (RTCORE_BACKFACE_CULLING cfg);
    autorewrite with vlen; rewrite !Nat.min_glb_lt_iff; intros ?; destruct_and!;
    rewrite lookup_total_vmul by len_solve;
    rewrite lookup_total_rcp by len_solve;
    rewrite lookup_total_abs by len_solve; done.
Qed.

Lemma mask_intersect_open cfg O D v0 e1 e2 Ng M tnear tfar i :
  mask_intersect cfg O D v0 e1 e2 Ng M tnear tfar !! i = Some true →
  (mt_absDen D Ng !!! i * tnear < mt_T O D v0 Ng !!! i)%Qc ∧
  (mt_T O D v0 Ng !!! i < mt_absDen D Ng !!! i * tfar)%Qc ∧
  (tnear < mt_t O D v0 Ng !!! i)%Qc ∧ (mt_t O D v0 Ng !!! i < tfar)%Qc.
Proof.
  intros Hi. rewrite (mask_intersect_lane_t _ _ _ _ _ _ _ _ _ _ _ Hi).
  apply mask_intersect_lane in Hi as (Hlt & Hf & _ & Hnear & Hfar).
  assert (i < length (mt_den D Ng)) as Hden.
  { revert Hlt. unfold mask_intersect. cbv zeta.
    destruct (RTCORE_BACKFACE_CULLING cfg);
      autorewrite with vlen; rewrite !Nat.min_glb_lt_iff; intros ?; destruct_and!; done. }
  unfold mt_absDen. rewrite lookup_total_abs by done.
  apply facing_abs_pos in Hf.
  split_and!; [done|done|by apply Qc_lt_div_r|by apply Qc_div_lt_l].
Qed.

(** * The per-lane intersect kernel, case by case *)

Lemma popcnt_mask_length (valid : list bool) : popcnt_mask valid ≤ length valid.
Proof. induction valid as [|[] valid IH]; simpl; lia. Qed.

Section intersect_k_cases.
Variables (cfg : Config) (enable : bool) (M : nat) (scene : Scene) (filter : Filter).
Variables (ray : RayK.t) (k : nat) (v0 e1 e2 Ng : Vec3 (list Qc)) (geomIDs primIDs : list Z).

Let O := Vec3_broadcast_lane M (RayK.org ray) k.
Let D := Vec3_broadcast_lane M (RayK.dir ray) k.
Let valid := mask_intersect cfg O D v0 e1 e2 Ng M
               (RayK.tnear ray !!! k) (RayK.tfar ray !!! k).
Let u := mt_u O D v0 e2 Ng.
Let v := mt_v O D v0 e1 Ng.
Let t := mt_t O D v0 Ng.

Lemma intersect_k_log_cases :
  (none valid = true ∧
   triangle_intersect_moeller_trumbore_k_log cfg enable M scene filter ray k
     v0 e1 e2 Ng geomIDs primIDs = Some ([], ray))
  ∨ (none valid = false ∧ ∃ sel e,
       intersect_k_run cfg enable M scene filter ray k v0 e1 e2 Ng geomIDs primIDs
         = Some (sel, e) ∧
       triangle_intersect_moeller_trumbore_k_log cfg enable M scene filter ray k
         v0 e1 e2 Ng geomIDs primIDs
         = Some (sel, intersect_k_commit M ray k v0 e1 e2 Ng geomIDs primIDs e) ∧
       (∀ p j rest, sel = p ++ j :: rest →
          clear_lanes valid p !! j = Some true ∧
          ∀ j', clear_lanes valid p !! j' = Some true → selected_first t j j') ∧
       (∀ j r, e = Break j r → last sel = Some j)).
Proof.
  rewrite triangle_intersect_moeller_trumbore_k_log_unfold.
  unfold intersect_k_run, intersect_k_commit. fold O D valid u v t.
  destruct (none valid) eqn:Hnone; [by left|right]. split; [done|].
  destruct (select_min_spec valid t Hnone) as [Hsel Hfirst].
  { apply length_mask_intersect_t. }
  destruct (RTCORE_INTERSECTION_FILTER cfg || RTCORE_RAY_MASK cfg).
  - destruct (intersect_k_loop_total cfg enable scene filter k u v t Ng geomIDs primIDs
      (length valid) ray valid _ Hsel) as [[sel e] Hloop].
    { apply popcnt_mask_length. } { apply length_mask_intersect_t. }
    rewrite Hloop. exists sel, e.
    destruct (intersect_k_loop_log _ _ _ _ _ _ _ _ _ _ _ _ _ _ _ _ _ Hsel Hfirst
      (length_mask_intersect_t _ _ _ _ _ _ _ _ _ _) Hloop) as [Hlog Hlast].
    split_and!; [done|by destruct e|done|done].
  - eexists _, _. split_and!; [done|done| |].
    + intros [|? [|??]] j rest Heq; simplify_eq/=. done.
    + by intros j r [= <- _].
Qed.

Lemma intersect_k_log_selected sel ray' i :
  triangle_intersect_moeller_trumbore_k_log cfg enable M scene filter ray k
    v0 e1 e2 Ng geomIDs primIDs = Some (sel, ray') →
  i ∈ sel → valid !! i = Some true.
Proof.
  intros Hlog Hi.
  destruct intersect_k_log_cases as [[_ Heq]|(_ & sel' & e & _ & Heq & Hsel & _)];
    rewrite Heq in Hlog; simplify_eq.
  { by apply elem_of_nil in Hi. }
  apply list_elem_of_split in Hi as (p & rest & ->).
  destruct (Hsel _ _ _ eq_refl) as [Hj _].
  by apply clear_lanes_Some in Hj as [? _].
Qed.

Lemma triangle_intersect_moeller_trumbore_k_total :
  is_Some (triangle_intersect_moeller_trumbore_k cfg enable M scene filter ray k
             v0 e1 e2 Ng geomIDs primIDs).
Proof.
  unfold triangle_intersect_moeller_trumbore_k.
  destruct intersect_k_log_cases as [[_ ->]|(_ & sel' & e & _ & -> & _)]; by eexists.
Qed.

End intersect_k_cases.

(** * The depth test of the intersect paths *)


Import Sample.



(** * The depth test of the occluded paths *)

Lemma triangle_occluded_moeller_trumbore_k_unfiltered
    cfg enable M scene filter ray k v0 e1 e2 Ng geomIDs primIDs i :
  RTCORE_INTERSECTION_FILTER cfg = false → RTCORE_RAY_MASK cfg = false →
  mask_occluded_k cfg (Vec3_broadcast_lane M (RayK.org ray) k)
    (Vec3_broadcast_lane M (RayK.dir ray) k) v0 e1 e2 Ng M
    (RayK.tnear ray !!! k) (RayK.tfar ray !!! k) !! i = Some true →
  triangle_occluded_moeller_trumbore_k cfg enable M scene filter ray k
    v0 e1 e2 Ng geomIDs primIDs = Some (true, ray).
Proof.
  intros HF HM Hi. unfold triangle_occluded_moeller_trumbore_k.
  rewrite triangle_occluded_moeller_trumbore_k_log_unfold. cbv zeta.
  rewrite HF, HM. simpl.
  destruct (none _) eqn:Hnone; [|done].
  by destruct (proj1 (none_true _) Hnone i).
Qed.





(** * Re-selection in the per-lane intersect kernel *)

Section candidate_facts.
Variables (cfg : Config) (enable : bool) (scene : Scene) (filter : Filter).
Variables (k : nat) (u v t : list Qc) (tri_Ng : Vec3 (list Qc)) (geomIDs primIDs : list Z).

Lemma intersect_k_pass_rejected ray i :
  candidate_rejected cfg enable scene filter k u v t tri_Ng geomIDs primIDs ray i →
  intersect_k_pass cfg enable scene filter k u v t tri_Ng geomIDs primIDs ray i = Next ray.
Proof.
  unfold candidate_rejected, mask_test_fails, filter_applies, filter_candidate,
    intersect_k_pass.
  cbv zeta. intros [[-> ->]|[(-> & -> & ->) Hrun]]; [done|].
  simpl. rewrite Hrun. by destruct (_ && _).
Qed.

Lemma intersect_k_pass_accepted ray i :
  candidate_accepted cfg enable scene filter k u v t tri_Ng geomIDs primIDs ray i →
  intersect_k_pass cfg enable scene filter k u v t tri_Ng geomIDs primIDs ray i
  = Leave (Return (candidate_hit k u v t tri_Ng geomIDs primIDs ray i)).
Proof.
  unfold candidate_accepted, mask_test_fails, filter_applies, filter_candidate,
    intersect_k_pass.
  cbv zeta. intros (Hmask & (-> & -> & ->) & Hrun). simpl. rewrite Hrun.
  destruct (RTCORE_RAY_MASK cfg); [|done]. simpl.
  destruct (Z.eqb_spec (Z.land (Geometry.mask (scene (geomIDs !!! i)))
                          (RayK.mask ray !!! k)) 0) as [Heq|]; [|done].
  by destruct Hmask.
Qed.

End candidate_facts.

(** C3.  In the per-lane intersect kernel (a) every lane the loop selects
    is, at that pass, a valid lane of minimum [t] among the lanes still
    valid (the lanes selected before it being cleared), and (b) with the
    intersection filter configured, if every valid lane that comes before
    lane [j] in the selection order (smaller [t], or equal [t] and lower
    lane index) is rejected, by the ray mask or by the filter, and the
    filter accepts lane [j], then the ray record holds exactly the hit of
    lane [j]: [u], [v], [t], [Ng], [geomID], [primID].  Lane [j] is the
    k-th nearest candidate when k-1 valid lanes come before it. *)
Theorem intersect_k_commits_kth_nearest
    (cfg : Config) (enable : bool) (M : nat) (scene : Scene) (filter : Filter)
    (ray : RayK.t) (k : nat) (v0 e1 e2 Ng : Vec3 vfloat) (geomIDs primIDs : vint) :
  let O := Vec3_broadcast_lane M (RayK.org ray) k in
  let D := Vec3_broadcast_lane M (RayK.dir ray) k in
  let valid := mask_intersect cfg O D v0 e1 e2 Ng M
                 (RayK.tnear ray !!! k) (RayK.tfar ray !!! k) in
  let u := mt_u O D v0 e2 Ng in
  let v := mt_v O D v0 e1 Ng in
  let t := mt_t O D v0 Ng in
  (∃ sel ray',
     triangle_intersect_moeller_trumbore_k_log cfg enable M scene filter ray k
       v0 e1 e2 Ng geomIDs primIDs = Some (sel, ray')
     ∧ ∀ p j rest, sel = p ++ j :: rest →
         clear_lanes valid p !! j = Some true
         ∧ ∀ j', clear_lanes valid p !! j' = Some true → (t !!! j ≤ t !!! j')%Qc)
  ∧ (∀ j,
       valid !! j = Some true →
       (∀ i, valid !! i = Some true → i ≠ j → selected_first t i j →
          candidate_rejected cfg enable scene filter k u v t Ng geomIDs primIDs ray i) →
       candidate_accepted cfg enable scene filter k u v t Ng geomIDs primIDs ray j →
       triangle_intersect_moeller_trumbore_k cfg enable M scene filter ray k
         v0 e1 e2 Ng geomIDs primIDs
       = Some (update_hit ray k (u !!! j) (v !!! j) (t !!! j) (Vec3_lane Ng j)
                 (geomIDs !!! j) (primIDs !!! j))).
Proof.
  intros O D valid u v t.
  pose proof (intersect_k_log_cases cfg enable M scene filter ray k v0 e1 e2 Ng
                geomIDs primIDs) as Hcases.
  fold O D valid t in Hcases. split.
  - destruct Hcases as [[_ Hlog]|(_ & sel & e & _ & Hlog & Hsel & _)].
    + exists [], ray. split; [done|]. by intros [|??] j rest.
    + eexists _, _. split; [done|]. intros p j rest Heq.
      destruct (Hsel _ _ _ Heq) as [Hj Hmin]. split; [done|].
      intros j' Hj'. destruct (Hmin _ Hj') as [?|[-> _]];
        [by apply Qclt_le_weak|apply Qcle_refl].
  - intros j Hj Hrej Hacc.
    assert (RTCORE_INTERSECTION_FILTER cfg = true) as HF by apply Hacc.
    unfold triangle_intersect_moeller_trumbore_k.
    destruct Hcases as [[Hnone _]|(Hnone & sel & e & Hrun & -> & _)].
    { by destruct (proj1 (none_true _) Hnone j). }
    simpl. f_equal.
    unfold intersect_k_run in Hrun. cbv zeta in Hrun.
    fold O D valid u v t in Hrun. rewrite HF in Hrun. simpl in Hrun.
    destruct (select_min_spec valid t Hnone) as [Hsel Hfirst].
    { apply length_mask_intersect_t. }
    destruct (intersect_k_loop_selects cfg enable scene filter k u v t Ng geomIDs primIDs
      (length valid) ray valid _ j
      (Return (candidate_hit k u v t Ng geomIDs primIDs ray j)) Hsel Hfirst
      (length_mask_intersect_t _ _ _ _ _ _ _ _ _ _) (popcnt_mask_length _) Hj)
      as (sel' & Hloop & _).
    + intros i Hi Hne Hsf. apply intersect_k_pass_rejected. by apply Hrej.
    + by apply intersect_k_pass_accepted.
    + rewrite Hloop in Hrun. by simplify_eq.
Qed.

(** Three triangles at [t = 2, 1, 3] in lanes 0, 1, 2 and a filter that
    accepts primitive 10 (lane 0) only: lane 0 is the second nearest, the
    nearer lane 1 is rejected, and the hit of lane 0 is committed. *)
Lemma intersect_k_commits_kth_nearest_witness :
  triangle_intersect_moeller_trumbore_k cfg_filter true 3 scene (accept_prim 10)
    ray9 0 (TriangleN.v0 batch3) (TriangleN.e1 batch3) (TriangleN.e2 batch3)
    (TriangleN.Ng batch3) (TriangleN.geomIDs batch3) (TriangleN.primIDs batch3)
  = Some (update_hit ray9 0
            (mt_u (Vec3_broadcast_lane 3 (RayK.org ray9) 0)
               (Vec3_broadcast_lane 3 (RayK.dir ray9) 0)
               (TriangleN.v0 batch3) (TriangleN.e2 batch3) (TriangleN.Ng batch3) !!! 0%nat)
            (mt_v (Vec3_broadcast_lane 3 (RayK.org ray9) 0)
               (Vec3_broadcast_lane 3 (RayK.dir ray9) 0)
               (TriangleN.v0 batch3) (TriangleN.e1 batch3) (TriangleN.Ng batch3) !!! 0%nat)
            (mt_t (Vec3_broadcast_lane 3 (RayK.org ray9) 0)
               (Vec3_broadcast_lane 3 (RayK.dir ray9) 0)
               (TriangleN.v0 batch3) (TriangleN.Ng batch3) !!! 0%nat)
            (Vec3_lane (TriangleN.Ng batch3) 0)
            (TriangleN.geomIDs batch3 !!! 0%nat) (TriangleN.primIDs batch3 !!! 0%nat)).
Proof.
  apply (intersect_k_commits_kth_nearest cfg_filter true 3 scene (accept_prim 10)
           ray9 0 (TriangleN.v0 batch3) (TriangleN.e1 batch3) (TriangleN.e2 batch3)
           (TriangleN.Ng batch3) (TriangleN.geomIDs batch3) (TriangleN.primIDs batch3)).
  - vm_compute. reflexivity.
  - intros [|[|[|i]]] Hi Hne Hfirst.
    + done.
    + right. split; [repeat split|decide_by_computation].
    + exfalso. revert Hfirst. decide_by_computation.
    + vm_compute in Hi. discriminate Hi.
  - split; [|split; [repeat split|decide_by_computation]].
    intros [_ Hland]. vm_compute in Hland. discriminate Hland.
Defined.

(** * The packet loops and invalid lanes *)

Lemma lanes_before_invalid_elem valid lanes i :
  i ∈ lanes_before_invalid valid lanes → valid !!! i = true ∧ i ∈ lanes.
Proof.
  induction lanes as [|j lanes IH]; simpl; [by intros ?%elem_of_nil|].
  destruct (valid !!! j) eqn:Hj; [|by intros ?%elem_of_nil].
  intros [->|Hi]%elem_of_cons; [split; [done|by left]|].
  destruct (IH Hi). split; [done|by right].
Qed.

Lemma lanes_before_invalid_all valid lanes :
  (∀ j, j ∈ lanes → valid !!! j = true) → lanes_before_invalid valid lanes = lanes.
Proof.
  induction lanes as [|j lanes IH]; intros Hall; simpl; [done|].
  rewrite (Hall j) by by left. f_equal. apply IH. intros i Hi. apply Hall. by right.
Qed.

Lemma lanes_before_invalid_stop valid l1 i l2 :
  (∀ j, j ∈ l1 → valid !!! j = true) → valid !!! i = false →
  lanes_before_invalid valid (l1 ++ i :: l2) = l1.
Proof.
  intros Hall Hi. induction l1 as [|j l1 IH]; simpl.
  - by rewrite Hi.
  - rewrite (Hall j) by by left. f_equal. apply IH. intros j' Hj'. apply Hall. by right.
Qed.

Section packet_loops.
Variables (cfg : Config) (K : nat).
Variable IntersectKEpilog : vint → vint → nat → Epilog RayK.t vbool.
Variable OccludedKEpilog : vint → vint → nat → Epilog (vbool * RayK.t) vbool.

Lemma TriangleNIntersectorM_intersect_loop_lanes valid_i tri lanes ray :
  TriangleNIntersectorM_intersect_loop cfg K IntersectKEpilog valid_i tri lanes ray
  = foldl (λ ray i, TriangleNIntersectorM_intersect_lane cfg K IntersectKEpilog valid_i tri i ray)
      ray (lanes_before_invalid (TriangleN.valid tri) lanes).
Proof.
  revert ray. induction lanes as [|i lanes IH]; intros ray; simpl; [done|].
  destruct (TriangleN.valid tri !!! i); simpl; [apply IH|done].
Qed.

Lemma TriangleNIntersectorM_occluded_loop_lanes tri lanes st :
  TriangleNIntersectorM_occluded_loop cfg K OccludedKEpilog tri lanes st
  = occluded_lanes (TriangleNIntersectorM_occluded_lane cfg K OccludedKEpilog tri)
      (lanes_before_invalid (TriangleN.valid tri) lanes) st.
Proof.
  revert st. induction lanes as [|i lanes IH]; intros st; simpl; [done|].
  destruct (TriangleN.valid tri !!! i); simpl; [|done].
  fold (TriangleNIntersectorM_occluded_lane cfg K OccludedKEpilog tri i st).
  destruct (none _); [done|apply IH].
Qed.

Lemma TriangleNMblurIntersectorM_intersect_loop_lanes valid_i tri lanes ray :
  TriangleNMblurIntersectorM_intersect_loop cfg K IntersectKEpilog valid_i tri lanes ray
  = foldl (λ ray i, TriangleNMblurIntersectorM_intersect_lane cfg K IntersectKEpilog valid_i tri i ray)
      ray (lanes_before_invalid (TriangleNMblur.valid tri) lanes).
Proof.
  revert ray. induction lanes as [|i lanes IH]; intros ray; simpl; [done|].
  destruct (TriangleNMblur.valid tri !!! i); simpl; [apply IH|done].
Qed.

Lemma TriangleNMblurIntersectorM_occluded_loop_lanes tri lanes st :
  TriangleNMblurIntersectorM_occluded_loop cfg K OccludedKEpilog tri lanes st
  = occluded_lanes (TriangleNMblurIntersectorM_occluded_lane cfg K OccludedKEpilog tri)
      (lanes_before_invalid (TriangleNMblur.valid tri) lanes) st.
Proof.
  revert st. induction lanes as [|i lanes IH]; intros st; simpl; [done|].
  destruct (TriangleNMblur.valid tri !!! i); simpl; [|done].
  fold (TriangleNMblurIntersectorM_occluded_lane cfg K OccludedKEpilog tri i st).
  destruct (none _); [done|apply IH].
Qed.

End packet_loops.

(** C4 (amended).  The packet loops (intersect and occluded, static and
    motion blur) visit the triangle lanes in order and stop at the first
    lane marked invalid: the lanes tested are exactly the valid lanes before
    the first invalid one (for occluded, until no ray is left unoccluded).
    Every lane tested is valid; when all lanes are valid, or the valid lanes
    form a prefix of the batch, every valid lane is tested; a valid lane
    behind an invalid lane is not tested. *)
Theorem packet_loops_stop_at_first_invalid_lane
    (cfg : Config) (M K : nat)
    (IntersectKEpilog : vint → vint → nat → Epilog RayK.t vbool)
    (OccludedKEpilog : vint → vint → nat → Epilog (vbool * RayK.t) vbool) :
  (∀ valid_i ray tri,
     TriangleNIntersectorM_intersect cfg M K IntersectKEpilog valid_i ray tri
     = foldl (λ ray i, TriangleNIntersectorM_intersect_lane cfg K IntersectKEpilog
                         valid_i tri i ray)
         ray (lanes_before_invalid (TriangleN.valid tri) (seq 0 M)))
  ∧ (∀ valid_i ray tri,
       TriangleNIntersectorM_occluded cfg M K OccludedKEpilog valid_i ray tri
       = let st := occluded_lanes
                     (TriangleNIntersectorM_occluded_lane cfg K OccludedKEpilog tri)
                     (lanes_before_invalid (TriangleN.valid tri) (seq 0 M))
                     (valid_i, ray) in
         (vnot (fst st), snd st))
  ∧ (∀ valid_i ray tri,
       TriangleNMblurIntersectorM_intersect cfg M K IntersectKEpilog valid_i ray tri
       = foldl (λ ray i, TriangleNMblurIntersectorM_intersect_lane cfg K IntersectKEpilog
                           valid_i tri i ray)
           ray (lanes_before_invalid (TriangleNMblur.valid tri) (seq 0 M)))
  ∧ (∀ valid_i ray tri,
       TriangleNMblurIntersectorM_occluded cfg M K OccludedKEpilog valid_i ray tri
       = let st := occluded_lanes
                     (TriangleNMblurIntersectorM_occluded_lane cfg K OccludedKEpilog tri)
                     (lanes_before_invalid (TriangleNMblur.valid tri) (seq 0 M))
                     (valid_i, ray) in
         (vnot (fst st), snd st))
  ∧ (∀ valid lanes i,
       i ∈ lanes_before_invalid valid lanes → valid !!! i = true ∧ i ∈ lanes)
  ∧ (∀ valid lanes,
       (∀ j, j ∈ lanes → valid !!! j = true) → lanes_before_invalid valid lanes = lanes)
  ∧ (∀ valid l1 i l2,
       (∀ j, j ∈ l1 → valid !!! j = true) → valid !!! i = false →
       lanes_before_invalid valid (l1 ++ i :: l2) = l1).
Proof.
  split_and!.
  - intros. apply TriangleNIntersectorM_intersect_loop_lanes.
  - intros. unfold TriangleNIntersectorM_occluded.
    by rewrite TriangleNIntersectorM_occluded_loop_lanes.
  - intros. apply TriangleNMblurIntersectorM_intersect_loop_lanes.
  - intros. unfold TriangleNMblurIntersectorM_occluded.
    by rewrite TriangleNMblurIntersectorM_occluded_loop_lanes.
  - apply lanes_before_invalid_elem.
  - apply lanes_before_invalid_all.
  - apply lanes_before_invalid_stop.
Qed.

(** With the flags [true; false; true] only lane 0 is tested. *)
Lemma packet_loops_stop_witness :
  lanes_before_invalid [true; false; true] ([0] ++ 1 :: [2]) = [0].
Proof.
  apply (packet_loops_stop_at_first_invalid_lane cfg 3 1 IntersectKEpilog_ref
           OccludedKEpilog_ref).
  - intros j Hj. apply list_elem_of_singleton in Hj. subst j. reflexivity.
  - reflexivity.
Defined.

(** C4, counterexample: lane 0 of the batch is marked invalid and lane 1
    valid.  The packet operations leave the ray as it was, although lane 1
    tested on its own is hit, respectively occludes the ray. *)
Lemma packet_loop_invalid_lane_hides_valid_lane :
  TriangleN.valid batch_gap !!! 0%nat = false
  ∧ TriangleN.valid batch_gap !!! 1%nat = true
  ∧ TriangleNIntersectorM_intersect cfg 2 1 IntersectKEpilog_ref [true] ray9 batch_gap
    = ray9
  ∧ TriangleNIntersectorM_intersect_lane cfg 1 IntersectKEpilog_ref [true] batch_gap 1 ray9
    = update_hit ray9 0 (q 1 4) (q 1 4) (q 1 1) (mkVec3 0%Qc 0%Qc (q (-1) 1)) 1 11
  ∧ TriangleNIntersectorM_occluded cfg 2 1 OccludedKEpilog_ref [true] ray9 batch_gap
    = ([false], ray9)
  ∧ TriangleNIntersectorM_occluded_lane cfg 1 OccludedKEpilog_ref batch_gap 1 ([true], ray9)
    = ([false], ray9).
Proof. split_and!; decide_by_computation. Qed.

(** * What the kernels leave of the ray *)

Section pass_frames.
Variables (cfg : Config) (enable : bool) (scene : Scene) (filter : Filter).
Variable P : RayK.t → Prop.
Hypothesis Hkeeps : filter_keeps P filter.

Lemma occluded_k_pass_keeps k absDen U V T Ng geomIDs primIDs ray i res :
  P ray →
  occluded_k_pass cfg enable scene filter k absDen U V T Ng geomIDs primIDs ray i = res →
  match res with
  | Leave r => P (snd r)
  | Next ray' => P ray'
  end.
Proof.
  intros HP <-. unfold occluded_k_pass. cbv zeta.
  destruct (_ && (_ =? _)%Z); [done|].
  destruct (_ && _ && _); [|done].
  match goal with |- context [filter ?g ?r ?k ?a ?b ?c ?n ?gid ?pid] =>
    pose proof (Hkeeps g r k a b c n gid pid HP) as HP';
    destruct (filter g r k a b c n gid pid) as [[] ray'] end; done.
Qed.

Lemma intersect_k_pass_keeps k u v t Ng geomIDs primIDs ray i res :
  P ray →
  intersect_k_pass cfg enable scene filter k u v t Ng geomIDs primIDs ray i = res →
  match res with
  | Leave e => P (exit_ray e)
  | Next ray' => P ray'
  end.
Proof.
  intros HP <-. unfold intersect_k_pass. cbv zeta.
  destruct (_ && (_ =? _)%Z); [done|].
  destruct (_ && _ && _); [|done].
  match goal with |- context [filter ?g ?r ?k ?a ?b ?c ?n ?gid ?pid] =>
    pose proof (Hkeeps g r k a b c n gid pid HP) as HP';
    destruct (filter g r k a b c n gid pid) as [[] ray'] end; done.
Qed.

End pass_frames.

Lemma movemask_nonzero (valid : list bool) : none valid = false → movemask valid ≠ 0%N.
Proof. intros Hnone Hm%movemask_0. congruence. Qed.

(** The occluded kernel answers, and touches the packet through the
    occlusion filter only. *)
Lemma triangle_occluded_moeller_trumbore_k_frame
    cfg enable M scene filter (P : RayK.t → Prop) ray k v0 e1 e2 Ng geomIDs primIDs :
  filter_keeps P filter → P ray →
  ∃ b ray',
    triangle_occluded_moeller_trumbore_k cfg enable M scene filter ray k
      v0 e1 e2 Ng geomIDs primIDs = Some (b, ray') ∧ P ray'.
Proof.
  intros Hkeeps HP. unfold triangle_occluded_moeller_trumbore_k.
  rewrite triangle_occluded_moeller_trumbore_k_log_unfold. cbv zeta.
  destruct (none _) eqn:Hnone; [by eexists _, _|].
  destruct (_ || _); [|by eexists _, _].
  match goal with |- context [occluded_k_loop _ _ _ _ ?fuel ?k ?a ?U ?V ?T ?Ng ?g ?p ?r ?m] =>
    destruct (occluded_k_loop_total cfg enable scene filter k a U V T Ng g p fuel r m)
      as [[sel [b ray']] Hloop] end.
  { by apply movemask_nonzero. }
  { apply popcnt_movemask. }
  rewrite Hloop. exists b, ray'. split; [done|].
  change ray' with (snd (b, ray')).
  eapply (occluded_k_loop_inv _ _ _ _ _ _ _ _ _ _ _ _ P); [| |exact HP|exact Hloop].
  - intros r0 i r' HP0 Hpass.
    exact (occluded_k_pass_keeps cfg enable scene filter P Hkeeps
             _ _ _ _ _ _ _ _ _ _ _ HP0 Hpass).
  - intros r0 i b' r' HP0 Hpass.
    exact (occluded_k_pass_keeps cfg enable scene filter P Hkeeps
             _ _ _ _ _ _ _ _ _ _ _ HP0 Hpass).
Qed.

(** The intersect kernel with every surviving lane rejected. *)
Lemma triangle_intersect_moeller_trumbore_k_no_hit
    cfg enable M scene filter ray k v0 e1 e2 Ng geomIDs primIDs :
  let O := Vec3_broadcast_lane M (RayK.org ray) k in
  let D := Vec3_broadcast_lane M (RayK.dir ray) k in
  let valid := mask_intersect cfg O D v0 e1 e2 Ng M
                 (RayK.tnear ray !!! k) (RayK.tfar ray !!! k) in
  (∀ i, valid !! i = Some true →
     candidate_rejected cfg enable scene filter k (mt_u O D v0 e2 Ng)
       (mt_v O D v0 e1 Ng) (mt_t O D v0 Ng) Ng geomIDs primIDs ray i) →
  triangle_intersect_moeller_trumbore_k cfg enable M scene filter ray k
    v0 e1 e2 Ng geomIDs primIDs = Some ray.
Proof.
  intros O D valid Hrej. unfold triangle_intersect_moeller_trumbore_k.
  destruct (intersect_k_log_cases cfg enable M scene filter ray k v0 e1 e2 Ng
              geomIDs primIDs) as [[_ ->]|(Hnone & sel & e & Hrun & -> & _)]; [done|].
  fold O D valid in Hnone. simpl. f_equal.
  unfold intersect_k_run in Hrun. cbv zeta in Hrun. fold O D valid in Hrun.
  destruct (select_min_spec valid (mt_t O D v0 Ng) Hnone) as [Hsel _].
  { apply length_mask_intersect_t. }
  destruct (RTCORE_INTERSECTION_FILTER cfg || RTCORE_RAY_MASK cfg) eqn:Hcfg.
  - destruct (intersect_k_loop_all_rejected cfg enable scene filter k
      (mt_u O D v0 e2 Ng) (mt_v O D v0 e1 Ng) (mt_t O D v0 Ng) Ng geomIDs primIDs
      (length valid) ray valid _ Hsel) as [sel' Hloop].
    + apply length_mask_intersect_t.
    + apply popcnt_mask_length.
    + intros i Hi. by apply intersect_k_pass_rejected, Hrej.
    + rewrite Hloop in Hrun. by simplify_eq.
  - apply orb_false_iff in Hcfg as [HF HM].
    destruct (Hrej _ Hsel) as [[HM' _]|[(HF' & _) _]]; congruence.
Qed.

(** C5.  When no candidate is accepted, that is when every lane that
    survives the depth test is rejected by the ray mask or by the filter
    (which on rejection leaves the packet as it was), the per-lane intersect
    kernel returns the packet unchanged; the single-ray and the packet
    kernel answer "no hit" with the ray untouched when no lane survives.
    The per-lane occluded kernel always answers a boolean and never writes
    the packet itself: whatever property of the packet the occlusion filter
    keeps, the kernel keeps; with a filter that leaves the packet alone the
    packet is returned as it was. *)
Theorem no_hit_and_occlusion_leave_the_ray
    (cfg : Config) (enable : bool) (M K : nat) (scene : Scene)
    (runIntersectionFilter runOcclusionFilter : Filter) :
  (∀ ray k v0 e1 e2 Ng geomIDs primIDs,
     let O := Vec3_broadcast_lane M (RayK.org ray) k in
     let D := Vec3_broadcast_lane M (RayK.dir ray) k in
     let valid := mask_intersect cfg O D v0 e1 e2 Ng M
                    (RayK.tnear ray !!! k) (RayK.tfar ray !!! k) in
     (∀ i, valid !! i = Some true →
        candidate_rejected cfg enable scene runIntersectionFilter k (mt_u O D v0 e2 Ng)
          (mt_v O D v0 e1 Ng) (mt_t O D v0 Ng) Ng geomIDs primIDs ray i) →
     triangle_intersect_moeller_trumbore_k cfg enable M scene runIntersectionFilter ray k
       v0 e1 e2 Ng geomIDs primIDs = Some ray)
  ∧ (∀ ray v0 e1 e2 Ng (epilog : Epilog Ray.t bool),
       none (mask_intersect cfg (Vec3_broadcast M (Ray.org ray))
               (Vec3_broadcast M (Ray.dir ray)) v0 e1 e2 Ng M
               (Ray.tnear ray) (Ray.tfar ray)) = true →
       moeller_trumbore_intersect1 cfg M ray v0 e1 e2 Ng epilog = (false, ray))
  ∧ (∀ St valid0 ray v0 e1 e2 Ng (epilog : Epilog St vbool) st,
       none (mask_intersectK cfg (RayK.org ray) (RayK.dir ray) v0 e1 e2 Ng K valid0
               (RayK.tnear ray) (RayK.tfar ray)) = true →
       moeller_trumbore_intersectK cfg K valid0 ray v0 e1 e2 Ng epilog st
       = (broadcast_false K, st))
  ∧ (∀ (P : RayK.t → Prop) ray k v0 e1 e2 Ng geomIDs primIDs,
       filter_keeps P runOcclusionFilter → P ray →
       ∃ b ray',
         triangle_occluded_moeller_trumbore_k cfg enable M scene runOcclusionFilter ray k
           v0 e1 e2 Ng geomIDs primIDs = Some (b, ray') ∧ P ray').
Proof.
  split_and!.
  - intros ray k v0 e1 e2 Ng geomIDs primIDs.
    apply triangle_intersect_moeller_trumbore_k_no_hit.
  - intros ray v0 e1 e2 Ng epilog Hnone.
    rewrite moeller_trumbore_intersect1_unfold. cbv zeta. by rewrite Hnone.
  - intros St valid0 ray v0 e1 e2 Ng epilog st Hnone.
    rewrite moeller_trumbore_intersectK_unfold. cbv zeta. by rewrite Hnone.
  - intros P ray k v0 e1 e2 Ng geomIDs primIDs.
    apply triangle_occluded_moeller_trumbore_k_frame.
Qed.

(** The sample filter accepts primitive 99 only: all three candidates of
    the sample batch are rejected and the packet is returned as it was. *)
Lemma no_hit_leaves_the_ray_witness :
  triangle_intersect_moeller_trumbore_k cfg_filter true 3 scene (accept_prim 99)
    ray9 0 (TriangleN.v0 batch3) (TriangleN.e1 batch3) (TriangleN.e2 batch3)
    (TriangleN.Ng batch3) (TriangleN.geomIDs batch3) (TriangleN.primIDs batch3)
  = Some ray9.
Proof.
  apply (no_hit_and_occlusion_leave_the_ray cfg_filter true 3 1 scene
           (accept_prim 99) no_filter).
  intros [|[|[|i]]] Hi.
  - right. split; [repeat split|decide_by_computation].
  - right. split; [repeat split|decide_by_computation].
  - right. split; [repeat split|decide_by_computation].
  - vm_compute in Hi. discriminate Hi.
Defined.

(** * Rays parallel to the triangle plane *)

Section denominators.
Variable cfg : Config.
Variables (O D v0 e1 e2 Ng : Vec3 (list Qc)).

Lemma facing_lane_denominator i :
  i < length (mt_den D Ng) → facing cfg (mt_den D Ng !!! i) →
  mt_den D Ng !!! i ≠ 0%Qc ∧ (0 < mt_absDen D Ng !!! i)%Qc.
Proof.
  intros Hi Hf. unfold mt_absDen. rewrite lookup_total_abs by done.
  split; [by eapply facing_nonzero|by eapply facing_abs_pos].
Qed.

Lemma mask_intersect_denominator M tnear tfar i :
  mask_intersect cfg O D v0 e1 e2 Ng M tnear tfar !! i = Some true →
  mt_den D Ng !!! i ≠ 0%Qc ∧ (0 < mt_absDen D Ng !!! i)%Qc.
Proof.
  intros Hi. apply facing_lane_denominator;
    [|apply mask_intersect_lane in Hi as (_ & Hf & _); exact Hf].
  apply lookup_lt_Some in Hi. revert Hi. unfold mask_intersect. cbv zeta.
  destruct (RTCORE_BACKFACE_CULLING cfg);
    autorewrite with vlen; rewrite !Nat.min_glb_lt_iff; intros ?; destruct_and!; done.
Qed.

Lemma mask_occluded_k_denominator M tnear tfar i :
  mask_occluded_k cfg O D v0 e1 e2 Ng M tnear tfar !! i = Some true →
  mt_den D Ng !!! i ≠ 0%Qc ∧ (0 < mt_absDen D Ng !!! i)%Qc.
Proof.
  intros Hi. apply facing_lane_denominator;
    [|apply mask_occluded_k_lane in Hi as (_ & Hf & _); exact Hf].
  apply lookup_lt_Some in Hi. revert Hi. unfold mask_occluded_k. cbv zeta.
  destruct (RTCORE_BACKFACE_CULLING cfg);
    autorewrite with vlen; rewrite !Nat.min_glb_lt_iff; intros ?; destruct_and!; done.
Qed.

Lemma mask_intersectK_denominator K valid0 tnear tfar i :
  mask_intersectK cfg O D v0 e1 e2 Ng K valid0 tnear tfar !! i = Some true →
  mt_den D Ng !!! i ≠ 0%Qc ∧ (0 < mt_absDen D Ng !!! i)%Qc.
Proof.
  intros Hi. apply facing_lane_denominator;
    [|apply mask_intersectK_lane in Hi as (_ & _ & Hf & _); exact Hf].
  apply lookup_lt_Some in Hi. revert Hi. unfold mask_intersectK. cbv zeta.
  destruct (RTCORE_BACKFACE_CULLING cfg);
    autorewrite with vlen; rewrite !Nat.min_glb_lt_iff; intros ?; destruct_and!; done.
Qed.

End denominators.

(** The lanes the occluded kernel consults survived its mask, and so did
    some lane whenever it answers [true]. *)
Lemma triangle_occluded_moeller_trumbore_k_log_lanes
    cfg enable M scene filter ray k v0 e1 e2 Ng geomIDs primIDs :
  let valid := mask_occluded_k cfg (Vec3_broadcast_lane M (RayK.org ray) k)
                 (Vec3_broadcast_lane M (RayK.dir ray) k) v0 e1 e2 Ng M
                 (RayK.tnear ray !!! k) (RayK.tfar ray !!! k) in
  ∃ sel b ray',
    triangle_occluded_moeller_trumbore_k_log cfg enable M scene filter ray k
      v0 e1 e2 Ng geomIDs primIDs = Some (sel, (b, ray'))
    ∧ (∀ i, i ∈ sel → valid !! i = Some true)
    ∧ (b = true → ∃ i, valid !! i = Some true).
Proof.
  intros valid. rewrite triangle_occluded_moeller_trumbore_k_log_unfold. cbv zeta.
  fold valid. destruct (none valid) eqn:Hnone.
  { exists [], false, ray. split_and!; [done| |done]. by intros i ?%elem_of_nil. }
  destruct (_ || _).
  - match goal with |- context [occluded_k_loop _ _ _ _ ?fuel ?k ?a ?U ?V ?T ?Ng ?g ?p ?r ?m] =>
      destruct (occluded_k_loop_total cfg enable scene filter k a U V T Ng g p fuel r m)
        as [[sel [b ray']] Hloop] end.
    { by apply movemask_nonzero. }
    { apply popcnt_movemask. }
    rewrite Hloop. exists sel, b, ray'. split_and!; [done| |].
    + intros i Hi. apply bit_movemask.
      eapply occluded_k_loop_log; [|exact Hloop|exact Hi]. by apply movemask_nonzero.
    + intros _. by apply none_false.
  - exists [], true, ray. split_and!; [done| |].
    + by intros i ?%elem_of_nil.
    + intros _. by apply none_false.
Qed.

(** C6.  A lane whose denominator [den = Ng.D] is zero fails the validity
    predicate of every kernel, with and without backface culling ([cfg] is
    arbitrary): every lane handed to an epilog, selected by the per-lane
    intersect kernel or consulted by the per-lane occluded kernel has
    [den <> 0], hence [absDen > 0], so the reciprocal behind the reported
    [u], [v], [t] is never taken at zero; and the occluded kernel answers
    [true] only if such a lane exists. *)
Theorem parallel_ray_never_reported
    (cfg : Config) (enable : bool) (M K : nat) (scene : Scene)
    (runIntersectionFilter runOcclusionFilter : Filter) :
  (∀ ray v0 e1 e2 Ng (epilog : Epilog Ray.t bool),
     let O := Vec3_broadcast M (Ray.org ray) in
     let D := Vec3_broadcast M (Ray.dir ray) in
     let valid := mask_intersect cfg O D v0 e1 e2 Ng M (Ray.tnear ray) (Ray.tfar ray) in
     moeller_trumbore_intersect1 cfg M ray v0 e1 e2 Ng epilog
       = (if none valid then (false, ray) else epilog valid (mt_hit O D v0 e1 e2 Ng) ray)
     ∧ ∀ i, valid !! i = Some true →
         mt_den D Ng !!! i ≠ 0%Qc ∧ (0 < mt_absDen D Ng !!! i)%Qc)
  ∧ (∀ St valid0 ray v0 e1 e2 Ng (epilog : Epilog St vbool) st,
       let O := RayK.org ray in
       let D := RayK.dir ray in
       let valid := mask_intersectK cfg O D v0 e1 e2 Ng K valid0
                      (RayK.tnear ray) (RayK.tfar ray) in
       moeller_trumbore_intersectK cfg K valid0 ray v0 e1 e2 Ng epilog st
         = (if none valid then (broadcast_false K, st)
            else epilog valid (mt_hit O D v0 e1 e2 Ng) st)
       ∧ ∀ i, valid !! i = Some true →
           mt_den D Ng !!! i ≠ 0%Qc ∧ (0 < mt_absDen D Ng !!! i)%Qc)
  ∧ (∀ ray k v0 e1 e2 Ng geomIDs primIDs,
       let D := Vec3_broadcast_lane M (RayK.dir ray) k in
       ∃ sel ray',
         triangle_intersect_moeller_trumbore_k_log cfg enable M scene
           runIntersectionFilter ray k v0 e1 e2 Ng geomIDs primIDs = Some (sel, ray')
         ∧ ∀ i, i ∈ sel →
             mt_den D Ng !!! i ≠ 0%Qc ∧ (0 < mt_absDen D Ng !!! i)%Qc)
  ∧ (∀ ray k v0 e1 e2 Ng geomIDs primIDs,
       let D := Vec3_broadcast_lane M (RayK.dir ray) k in
       ∃ sel b ray',
         triangle_occluded_moeller_trumbore_k_log cfg enable M scene
           runOcclusionFilter ray k v0 e1 e2 Ng geomIDs primIDs = Some (sel, (b, ray'))
         ∧ (∀ i, i ∈ sel →
              mt_den D Ng !!! i ≠ 0%Qc ∧ (0 < mt_absDen D Ng !!! i)%Qc)
         ∧ (b = true → ∃ i, mt_den D Ng !!! i ≠ 0%Qc ∧ (0 < mt_absDen D Ng !!! i)%Qc)).
Proof.
  split_and!.
  - intros ray v0 e1 e2 Ng epilog O D valid. split.
    + apply moeller_trumbore_intersect1_unfold.
    + intros i. apply mask_intersect_denominator.
  - intros St valid0 ray v0 e1 e2 Ng epilog st O D valid. split.
    + apply moeller_trumbore_intersectK_unfold.
    + intros i. apply mask_intersectK_denominator.
  - intros ray k v0 e1 e2 Ng geomIDs primIDs D.
    destruct (triangle_intersect_moeller_trumbore_k_total cfg enable M scene
      runIntersectionFilter ray k v0 e1 e2 Ng geomIDs primIDs) as [ray' Hk].
    unfold triangle_intersect_moeller_trumbore_k in Hk.
    destruct (triangle_intersect_moeller_trumbore_k_log _ _ _ _ _ _ _ _ _ _ _ _ _)
      as [[sel r]|] eqn:Hlog; [|done].
    exists sel, r. split; [done|]. intros i Hi.
    eapply mask_intersect_denominator. by eapply intersect_k_log_selected.
  - intros ray k v0 e1 e2 Ng geomIDs primIDs D.
    destruct (triangle_occluded_moeller_trumbore_k_log_lanes cfg enable M scene
      runOcclusionFilter ray k v0 e1 e2 Ng geomIDs primIDs)
      as (sel & b & ray' & Hlog & Hsel & Htrue).
    exists sel, b, ray'. split_and!; [done| |].
    + intros i Hi. eapply mask_occluded_k_denominator. by apply Hsel.
    + intros Hb. destruct (Htrue Hb) as [i Hi]. exists i.
      by eapply mask_occluded_k_denominator.
Qed.

(** The lane hit by the sample ray has a nonzero denominator. *)
Lemma parallel_ray_never_reported_witness :
  mt_den (Vec3_broadcast 1 (Ray.dir (ray (q 1 1) (q 2 1))))
    (TriangleN.Ng (batch [q 1 1])) !!! 0%nat ≠ 0%Qc
  ∧ (0 < mt_absDen (Vec3_broadcast 1 (Ray.dir (ray (q 1 1) (q 2 1))))
           (TriangleN.Ng (batch [q 1 1])) !!! 0%nat)%Qc.
Proof.
  destruct (parallel_ray_never_reported cfg false 1 1 scene no_filter no_filter)
    as [H1 _].
  destruct (H1 (ray (q 1 1) (q 2 1)) (TriangleN.v0 (batch [q 1 1]))
              (TriangleN.e1 (batch [q 1 1])) (TriangleN.e2 (batch [q 1 1]))
              (TriangleN.Ng (batch [q 1 1])) (Intersect1Epilog_ref [] [])) as [_ Hlane].
  apply (Hlane 0%nat). vm_compute. reflexivity.
Defined.

(** The ray along the x axis runs parallel to the sample triangle: it is
    not reported, with or without backface culling. *)
Example parallel_ray_misses :
  TriangleNIntersector1_occluded cfg 1 Occluded1Epilog_ref ray_parallel (batch [q 1 1])
    = (false, ray_parallel)
  ∧ TriangleNIntersector1_occluded cfg_cull 1 Occluded1Epilog_ref ray_parallel
      (batch [q 1 1])
    = (false, ray_parallel).
Proof. split; decide_by_computation. Qed.

(** * Motion blur *)

Lemma vadd_vmul_broadcast_0 M (a d : list Qc) :
  length a = M → length d = M → (a + broadcast M 0 * d)%simd = a.
Proof.
  revert a d. induction M as [|M IH]; intros [|x a] [|y d] Ha Hd; simplify_eq/=; [done|].
  f_equal; [ring|]. by apply IH.
Qed.

Lemma vadd_vmul_broadcast_1 M (a d : list Qc) :
  length a = M → length d = M → (a + broadcast M 1 * d)%simd = (a + d)%simd.
Proof.
  revert a d. induction M as [|M IH]; intros [|x a] [|y d] Ha Hd; simplify_eq/=; [done|].
  f_equal; [ring|]. by apply IH.
Qed.

Lemma Vec3_interpolate_0 M (a d : Vec3 (list Qc)) :
  Vec3_width M a → Vec3_width M d →
  Vec3_add a (Vec3_scale (broadcast M 0) d) = a.
Proof.
  destruct a, d. intros (? & ? & ?) (? & ? & ?). unfold Vec3_add, Vec3_scale. simpl in *.
  by rewrite !vadd_vmul_broadcast_0.
Qed.

Lemma Vec3_interpolate_1 M (a d : Vec3 (list Qc)) :
  Vec3_width M a → Vec3_width M d →
  Vec3_add a (Vec3_scale (broadcast M 1) d) = Vec3_add a d.
Proof.
  destruct a, d. intros (? & ? & ?) (? & ? & ?). unfold Vec3_add, Vec3_scale. simpl in *.
  by rewrite !vadd_vmul_broadcast_1.
Qed.

Lemma Vec3_width_broadcast_lane K (a : Vec3 (list Qc)) i :
  Vec3_width K (Vec3_broadcast_lane K a i).
Proof. unfold Vec3_width, Vec3_broadcast_lane. simpl. by rewrite !length_broadcast. Qed.

(** Lane [j] of an interpolated component is [v + tau*dv]. *)
Lemma interpolate_lane M (tau : Qc) (a d : list Qc) j :
  j < M → j < length a → j < length d →
  (a + broadcast M tau * d)%simd !!! j = (a !!! j + tau * d !!! j)%Qc.
Proof.
  intros. rewrite lookup_total_vadd, lookup_total_vmul, lookup_total_broadcast;
    autorewrite with vlen; try lia. done.
Qed.



(** The base triangle is hit at [t = 1]. *)
Example motion_blur_time_0_hit :
  Ray.tfar (TriangleNMblurIntersector1_intersect cfg 1 Intersect1Epilog_ref
              (ray (q 1 1) (q 9 1)) batch_mblur) = q 1 1.
Proof. decide_by_computation. Qed.

(** * The triangle-pair adapter *)

(** C8 (the code at the failing input).  Each operation of the pair adapter
    is one call of the single-triangle kernel, through the vertex overload,
    which receives the edge vectors [e1], [e2] of the batch as the vertices
    [v1], [v2] and so tests a triangle with the edges [v0 - e1] and
    [e2 - v0].  The sample ray, which hits the first triangle of the sample
    pair at [t = 1] under the single-triangle adapter, is not reported by
    the pair adapter. *)
Theorem pairs_adapter_is_one_misdirected_call :
  (∀ cfg M (Intersect1Epilog Occluded1Epilog : vint → vint → Epilog Ray.t bool) ray tri,
     let v0 := TrianglePairsN.v0 tri in
     let e1 := Vec3_sub v0 (TrianglePairsN.e1 tri) in
     let e2 := Vec3_sub (TrianglePairsN.e2 tri) v0 in
     TrianglePairsNIntersector1_intersect cfg M Intersect1Epilog ray tri
       = snd (moeller_trumbore_intersect1 cfg M ray v0 e1 e2 (cross e1 e2)
                (Intersect1Epilog (TrianglePairsN.geomIDs tri)
                   (TrianglePairsN.primIDs tri)))
     ∧ TrianglePairsNIntersector1_occluded cfg M Occluded1Epilog ray tri
       = moeller_trumbore_intersect1 cfg M ray v0 e1 e2 (cross e1 e2)
           (Occluded1Epilog (TrianglePairsN.geomIDs tri)
              (TrianglePairsN.primIDs tri)))
  ∧ TrianglePairsNIntersector1_intersect cfg 1 Intersect1Epilog_ref
      (ray (q 1 1) (q 9 1)) pairs
    = ray (q 1 1) (q 9 1)
  ∧ TrianglePairsNIntersector1_occluded cfg 1 Occluded1Epilog_ref
      (ray (q 1 1) (q 9 1)) pairs
    = (false, ray (q 1 1) (q 9 1))
  ∧ Ray.tfar (TriangleNIntersector1_intersect cfg 1 Intersect1Epilog_ref
                (ray (q 1 1) (q 9 1)) (TrianglePairsN_first pairs)) = q 1 1
  ∧ TriangleNIntersector1_occluded cfg 1 Occluded1Epilog_ref
      (ray (q 1 1) (q 9 1)) (TrianglePairsN_first pairs)
    = (true, ray (q 1 1) (q 9 1)).
Proof.
  split_and!; [|decide_by_computation..].
  intros cfg M Intersect1Epilog Occluded1Epilog ray tri v0 e1 e2. split; reflexivity.
Qed.

(** * Determinism *)

Lemma bsf_lowest m j : bit m j = true → __bsf m ≤ j.
Proof.
  unfold bit. destruct m as [|p]; [done|]. simpl. revert j.
  induction p as [p IH|p IH|]; intros j Hj; simpl; [lia| |lia].
  destruct j as [|j]; [done|]. apply le_n_S, IH.
  rewrite Nat2N.inj_succ in Hj.
  exact (eq_trans (eq_sym (N.double_bits_succ (N.pos p) _)) Hj).
Qed.

Section determinism.
Variables (cfg : Config) (enable : bool).
Variables (scene1 scene2 : Scene) (filter1 filter2 : Filter).
Hypothesis Hscene : ∀ geomID, scene1 geomID = scene2 geomID.
Hypothesis Hfilter : Filter_agree filter1 filter2.

Lemma intersect_k_pass_agree k u v t Ng geomIDs primIDs ray i :
  intersect_k_pass cfg enable scene1 filter1 k u v t Ng geomIDs primIDs ray i
  = intersect_k_pass cfg enable scene2 filter2 k u v t Ng geomIDs primIDs ray i.
Proof. unfold intersect_k_pass. cbv zeta. by rewrite Hscene, Hfilter. Qed.

Lemma intersect_k_loop_agree fuel k u v t Ng geomIDs primIDs ray valid i :
  intersect_k_loop cfg enable scene1 filter1 fuel k u v t Ng geomIDs primIDs ray valid i
  = intersect_k_loop cfg enable scene2 filter2 fuel k u v t Ng geomIDs primIDs ray valid i.
Proof.
  revert ray valid i. induction fuel as [|fuel IH]; intros ray valid i; simpl; [done|].
  rewrite intersect_k_pass_agree. destruct (intersect_k_pass _ _ _ _ _ _ _ _ _ _ _ _ _); [done|].
  destruct (none _); [done|]. by rewrite IH.
Qed.

Lemma occluded_k_pass_agree k absDen U V T Ng geomIDs primIDs ray i :
  occluded_k_pass cfg enable scene1 filter1 k absDen U V T Ng geomIDs primIDs ray i
  = occluded_k_pass cfg enable scene2 filter2 k absDen U V T Ng geomIDs primIDs ray i.
Proof. unfold occluded_k_pass. cbv zeta. by rewrite Hscene, Hfilter. Qed.

Lemma occluded_k_loop_agree fuel k absDen U V T Ng geomIDs primIDs ray m :
  occluded_k_loop cfg enable scene1 filter1 fuel k absDen U V T Ng geomIDs primIDs ray m
  = occluded_k_loop cfg enable scene2 filter2 fuel k absDen U V T Ng geomIDs primIDs ray m.
Proof.
  revert ray m. induction fuel as [|fuel IH]; intros ray m; simpl; [done|].
  rewrite occluded_k_pass_agree. destruct (occluded_k_pass _ _ _ _ _ _ _ _ _ _ _ _ _ _); [done|].
  destruct (_ =? _)%N; [done|]. by rewrite IH.
Qed.

End determinism.



(** Two lanes at the same distance: the lower lane is selected. *)
Example select_min_tie : select_min [true; true; true] [q 2 1; q 1 1; q 1 1] = 1.
Proof. reflexivity. Qed.


(** * The ray interval only narrows *)

Lemma Filter_pure_keeps filter ray0 :
  Filter_pure filter → filter_keeps (λ ray, ray = ray0) filter.
Proof. intros Hpure geometry ray k u v t Ng geomID primID ->. apply Hpure. Qed.

Lemma update_hit_tfar ray k u v t Ng geomID primID :
  RayK.tfar (update_hit ray k u v t Ng geomID primID) !!! k
  = if decide (k < length (RayK.tfar ray)) then t else RayK.tfar ray !!! k.
Proof.
  simpl. case_decide.
  - by apply list_lookup_total_insert_eq.
  - by rewrite list_insert_ge by lia.
Qed.



Example intersect_k_narrows_tfar_to_1 :
  RayK.tfar <$> triangle_intersect_moeller_trumbore_k cfg false 3 scene no_filter ray9 0
      (TriangleN.v0 batch3) (TriangleN.e1 batch3) (TriangleN.e2 batch3)
      (TriangleN.Ng batch3) (TriangleN.geomIDs batch3) (TriangleN.primIDs batch3)
  = Some [q 1 1].
Proof. decide_by_computation. Qed.
